(** * log_analyzer.py: parsing, parallel fan-out, storage and aggregation

    A shallow embedding of [src/log_analyzer.py] and the proofs of the
    properties its specification states.

    Modelling conventions.
    - A Python [str] is a sequence of code points.  Text is modelled as
      [list ascii], one [ascii] per code point below 256; on that range the
      classes of the [re] module are: [\s] = 9..13, 28..31, 32, 133, 160 and
      [\d] = 48..57.
    - Python integers are unbounded: [Z].  [int(text)] raises [ValueError]
      on a literal of more than 4300 digits (the default of
      [sys.get_int_max_str_digits()]), and the [sqlite3] binding raises
      [OverflowError] on an integer outside 64 bits.
    - A call either returns a value or raises: [result].  An exception
      carries no state: what a failed call leaves behind is not modelled.
    - A file is its text: bytes that do not decode are outside the model.
    - Console output and timing are modelled only for
      [run_optimized_analysis], where a property depends on them. *)

From Stdlib Require Import Ascii String List ZArith Lia Bool Arith.
From Stdlib Require Import Permutation Sorted.
Import ListNotations.

Set Implicit Arguments.

(** ** Text *)

Definition str := list ascii.

Definition s (lit : string) : str := list_ascii_of_string lit.

Definition code (c : ascii) : nat := nat_of_ascii c.

Definition dq : ascii := Eval cbv in ascii_of_nat 34.
Definition nl : ascii := Eval cbv in ascii_of_nat 10.
Definition sp : ascii := " "%char.

(** ** Calls that may raise *)

Inductive exn : Type :=
| ValueError
| TypeError
| OverflowError
| OperationalError (msg : str).

Inductive result (A : Type) : Type :=
| Ok (a : A)
| Raise (e : exn).

Arguments Ok {A} a.
Arguments Raise {A} e.

Definition bind {A B : Type} (r : result A) (k : A -> result B) : result B :=
  match r with
  | Ok a => k a
  | Raise e => Raise e
  end.

Notation "x <- r ;; k" := (bind r (fun x => k))
  (at level 61, r at next level, right associativity).

(** ** The [re] module, as far as [LOG_PATTERN] uses it *)

Module Re.

(** [str.isspace] on one code point: what [\s] matches and [\S] rejects. *)
Definition is_space (c : ascii) : bool :=
  let n := code c in
  ((9 <=? n) && (n <=? 13)) || ((28 <=? n) && (n <=? 32))
  || (n =? 133) || (n =? 160).

(** [\d]: a decimal digit. *)
Definition is_digit (c : ascii) : bool :=
  let n := code c in (48 <=? n) && (n <=? 57).

Inductive cclass : Type :=
| NotSpace                (* \S   *)
| Digit                   (* \d   *)
| NotChar (c : ascii).    (* [^c] *)

Definition in_class (cls : cclass) (c : ascii) : bool :=
  match cls with
  | NotSpace => negb (is_space c)
  | Digit => is_digit c
  | NotChar x => negb (Ascii.eqb c x)
  end.

(** The nodes of a parsed pattern.  Every repetition in [LOG_PATTERN] is a
    greedy [+] over one character class, alone or as the whole body of a
    capturing group. *)
Inductive node : Type :=
| At_beginning                          (* ^      *)
| At_end                                (* $      *)
| Literal (c : ascii)
| Max_repeat (cls : cclass)             (* cls+   *)
| Subpattern (g : nat) (cls : cclass).  (* (cls+) *)

(** Group number and captured text, most recent first. *)
Definition groups := list (nat * str).

Fixpoint group (m : groups) (g : nat) : option str :=
  match m with
  | [] => None
  | (h, w) :: m' => if h =? g then Some w else group m' g
  end.

(** [$] without MULTILINE: at the end of the text, or just before a line
    feed that is its last character. *)
Definition at_end (rest : str) : bool :=
  match rest with
  | [] => true
  | [c] => Ascii.eqb c nl
  | _ => false
  end.

(** Greedy [cls+] by backtracking: take one character of the class, then
    first try to take more; when no longer run lets the rest of the
    pattern [k] succeed, try [k] here. *)
Fixpoint repeat_greedy (cls : cclass) (k : str -> str -> option groups)
         (taken rest : str) : option groups :=
  match rest with
  | [] => None
  | c :: rest' =>
      if in_class cls c then
        match repeat_greedy cls k (taken ++ [c]) rest' with
        | Some m => Some m
        | None => k (taken ++ [c]) rest'
        end
      else None
  end.

(** The matcher: the nodes left, the position, the text left and the
    groups closed so far. *)
Fixpoint run (p : list node) (pos : nat) (rest : str) (m : groups)
  : option groups :=
  match p with
  | [] => Some m
  | At_beginning :: p' => if pos =? 0 then run p' pos rest m else None
  | At_end :: p' => if at_end rest then run p' pos rest m else None
  | Literal c :: p' =>
      match rest with
      | c' :: rest' =>
          if Ascii.eqb c' c then run p' (S pos) rest' m else None
      | [] => None
      end
  | Max_repeat cls :: p' =>
      repeat_greedy cls
        (fun w rest' => run p' (pos + length w) rest' m) [] rest
  | Subpattern g cls :: p' =>
      repeat_greedy cls
        (fun w rest' => run p' (pos + length w) rest' ((g, w) :: m)) [] rest
  end.

(** [pattern.match(text)]: a match that starts at position 0. *)
Definition re_match (p : list node) (text : str) : option groups :=
  run p 0 text [].

End Re.

Import Re.

(** ** [int(text)] *)

Module PyInt.

(** White space that [int] skips around the literal. *)
Definition skipped (c : ascii) : bool :=
  let n := code c in
  ((9 <=? n) && (n <=? 13)) || (n =? 32) || (n =? 133) || (n =? 160).

Fixpoint lstrip (t : str) : str :=
  match t with
  | c :: t' => if skipped c then lstrip t' else t
  | [] => []
  end.

Definition strip (t : str) : str := rev (lstrip (rev (lstrip t))).

Definition digit_value (c : ascii) : option Z :=
  if is_digit c then Some (Z.of_nat (code c) - 48)%Z else None.

(** Digits with single underscores between them; [after_digit] tells
    whether the previous character was a digit. *)
Fixpoint digits (acc : Z) (after_digit : bool) (t : str) : option Z :=
  match t with
  | [] => if after_digit then Some acc else None
  | c :: t' =>
      match digit_value c with
      | Some d => digits (10 * acc + d)%Z true t'
      | None =>
          if Ascii.eqb c "_"%char && after_digit then digits acc false t'
          else None
      end
  end.

(** [sys.int_info.default_max_str_digits]: the most digits a decimal
    literal may have for [int] to convert it. *)
Definition int_max_str_digits : Z := 4300.

(** The digits of a literal; sign, white space and underscores do not
    count. *)
Definition digit_count (t : str) : nat := length (filter is_digit t).

Definition py_int (t : str) : result Z :=
  let body := strip t in
  let parsed :=
    match body with
    | c :: body' =>
        if Ascii.eqb c "-"%char then option_map Z.opp (digits 0 false body')
        else if Ascii.eqb c "+"%char then digits 0 false body'
        else digits 0 false body
    | [] => None
    end in
  match parsed with
  | Some z =>
      if (int_max_str_digits <? Z.of_nat (digit_count body))%Z
      then Raise ValueError
      else Ok z
  | None => Raise ValueError
  end.

End PyInt.

Import PyInt.

(** ** The line parser *)

(** [^(\S+) \S+ \S+ \[([^\]]+)\] "(\S+) (\S+) \S+" (\d+) (\S+)$] *)
Definition LOG_PATTERN : list node :=
  [ At_beginning;
    Subpattern 1 NotSpace; Literal sp;
    Max_repeat NotSpace; Literal sp;
    Max_repeat NotSpace; Literal sp;
    Literal "["%char; Subpattern 2 (NotChar "]"%char); Literal "]"%char;
    Literal sp;
    Literal dq;
    Subpattern 3 NotSpace; Literal sp;
    Subpattern 4 NotSpace; Literal sp;
    Max_repeat NotSpace;
    Literal dq; Literal sp;
    Subpattern 5 Digit; Literal sp;
    Subpattern 6 NotSpace;
    At_end ].

(** The tuple [(address, timestamp, method, path, status)]. *)
Definition record : Type := (str * str * str * str * Z)%type.

(** A successful match of [LOG_PATTERN] has set every group (each lies on
    the only path through the pattern), so the last branch is never taken;
    it stands for [int(None)]. *)
Definition parse_log_line (line : str) : result (option record) :=
  match re_match LOG_PATTERN line with
  | Some m =>
      match group m 1, group m 2, group m 3, group m 4, group m 5 with
      | Some a, Some t, Some me, Some p, Some st =>
          status <- py_int st ;;
          Ok (Some (a, t, me, p, status))
      | _, _, _, _, _ => Raise TypeError
      end
  | None => Ok None
  end.

Definition line_post : str :=
  s "10.0.0.1 - - [01/Jan/2024:00:00:00 +0000] " ++ dq ::
  s "POST /api/data HTTP/1.1" ++ dq :: s " 404 512".

(** ** The wire format, as the specification words it

    [<address> <dash-field> <dash-field> [<timestamp-text>]
     "<method> <path> <protocol>" <status-digits> <size-field>] *)

Record fields : Type := {
  f_address : str;
  f_user1 : str;
  f_user2 : str;
  f_timestamp : str;
  f_method : str;
  f_path : str;
  f_protocol : str;
  f_status : str;
  f_size : str
}.

Definition word (ok : ascii -> bool) (w : str) : Prop :=
  w <> [] /\ Forall (fun c => ok c = true) w.

Definition well_formed (f : fields) : Prop :=
  word (in_class NotSpace) (f_address f) /\
  word (in_class NotSpace) (f_user1 f) /\
  word (in_class NotSpace) (f_user2 f) /\
  word (in_class (NotChar "]"%char)) (f_timestamp f) /\
  word (in_class NotSpace) (f_method f) /\
  word (in_class NotSpace) (f_path f) /\
  word (in_class NotSpace) (f_protocol f) /\
  word (in_class Digit) (f_status f) /\
  word (in_class NotSpace) (f_size f).

(** The text of a line with these fields, followed by [tail]. *)
Definition render (f : fields) (tail : str) : str :=
  f_address f ++ sp :: f_user1 f ++ sp :: f_user2 f ++ sp ::
  "["%char :: f_timestamp f ++ "]"%char :: sp ::
  dq :: f_method f ++ sp :: f_path f ++ sp :: f_protocol f ++ dq :: sp ::
  f_status f ++ sp :: f_size f ++ tail.

(** A line of the wire format: the fields, and at most the line feed that
    [readlines] leaves at the end of a line. *)
Definition wire_format (line : str) (f : fields) : Prop :=
  well_formed f /\ (line = render f [] \/ line = render f [nl]).

Definition matches_wire_format (line : str) : Prop :=
  exists f, wire_format line f.

Definition decimal_step (acc : Z) (c : ascii) : Z :=
  (10 * acc + (Z.of_nat (code c) - 48))%Z.

(** The value of a run of decimal digits, most significant first. *)
Definition decimal (w : str) : Z :=
  fold_left decimal_step w 0%Z.

(** The record the specification assigns to a line with fields [f]. *)
Definition record_of (f : fields) : record :=
  (f_address f, f_timestamp f, f_method f, f_path f, decimal (f_status f)).

(** [count_matching lines k]: exactly [k] of [lines] are in the wire
    format. *)
Inductive count_matching : list str -> nat -> Prop :=
| count_nil : count_matching [] 0
| count_hit line lines k :
    matches_wire_format line -> count_matching lines k ->
    count_matching (line :: lines) (S k)
| count_miss line lines k :
    ~ matches_wire_format line -> count_matching lines k ->
    count_matching (line :: lines) k.

(** ** Malformed lines, as the specification lists them *)

Definition count_char (c : ascii) (line : str) : nat :=
  length (filter (Ascii.eqb c) line).

(** Fields that are in place, whatever the status token holds. *)
Definition tokenized (f : fields) : Prop :=
  word (in_class NotSpace) (f_address f) /\
  word (in_class NotSpace) (f_user1 f) /\
  word (in_class NotSpace) (f_user2 f) /\
  word (in_class (NotChar "]"%char)) (f_timestamp f) /\
  word (in_class NotSpace) (f_method f) /\
  word (in_class NotSpace) (f_path f) /\
  word (in_class NotSpace) (f_protocol f) /\
  word (in_class NotSpace) (f_status f) /\
  word (in_class NotSpace) (f_size f).

Definition line_end (tail : str) : Prop := tail = [] \/ tail = [nl].

Definition with_status (f : fields) (status : str) : fields :=
  {| f_address := f_address f; f_user1 := f_user1 f; f_user2 := f_user2 f;
     f_timestamp := f_timestamp f; f_method := f_method f;
     f_path := f_path f; f_protocol := f_protocol f; f_status := status;
     f_size := f_size f |}.

Inductive malformed : str -> Prop :=
| empty_line : malformed []
| missing_opening_bracket line :
    ~ In "["%char line -> malformed line
| missing_closing_bracket line :
    ~ In "]"%char line -> malformed line
| missing_quote line :
    count_char dq line < 2 -> malformed line
| non_numeric_status f tail :
    tokenized f -> ~ Forall (fun c => is_digit c = true) (f_status f) ->
    line_end tail -> malformed (render f tail)
| too_few_fields line :
    count_char sp line < 8 -> malformed line
| one_more_field f extra :
    well_formed f -> malformed (render f (sp :: extra)).

(** ** Sample lines *)

Definition fields_post : fields :=
  {| f_address := s "10.0.0.1"; f_user1 := s "-"; f_user2 := s "-";
     f_timestamp := s "01/Jan/2024:00:00:00 +0000"; f_method := s "POST";
     f_path := s "/api/data"; f_protocol := s "HTTP/1.1";
     f_status := s "404"; f_size := s "512" |}.

(** The same request with a status of thirty digits. *)
Definition fields_huge : fields :=
  with_status fields_post (s "999999999999999999999999999999").

(** The same request with a status of 4300 nines, and of 4301. *)
Definition fields_at_limit : fields :=
  with_status fields_post (repeat "9"%char 4300).

Definition fields_past_limit : fields :=
  with_status fields_post (repeat "9"%char 4301).

(** The status of a line of the wire format is one [int] converts. *)
Definition short_status (line : str) : Prop :=
  forall f, wire_format line f ->
            (Z.of_nat (length (f_status f)) <= int_max_str_digits)%Z.

(** The same request with a signed status. *)
Definition line_negative : str :=
  s "10.0.0.1 - - [01/Jan/2024:00:00:00 +0000] " ++ dq ::
  s "POST /api/data HTTP/1.1" ++ dq :: s " -404 512".

(** ** The worker pool *)

Module Pool.

(** The chunk size [Pool.map] computes when none is given:
    [divmod(len(iterable), len(pool) * 4)], rounded up. *)
Definition chunksize (processes len : nat) : nat :=
  if len =? 0 then 0
  else
    let q := len / (processes * 4) in
    if len mod (processes * 4) =? 0 then q else S q.

(** [Pool._get_tasks]: slices of [size] items until a slice is empty.
    [fuel] bounds the number of slices. *)
Fixpoint get_tasks {A : Type} (fuel size : nat) (items : list A)
  : list (list A) :=
  match fuel with
  | 0 => []
  | S fuel' =>
      match firstn size items with
      | [] => []
      | x => x :: get_tasks fuel' size (skipn size items)
      end
  end.

(** [mapstar]: what one worker does with one task. *)
Fixpoint mapstar {A B : Type} (f : A -> result B) (task : list A)
  : result (list B) :=
  match task with
  | [] => Ok []
  | x :: task' =>
      y <- f x ;;
      ys <- mapstar f task' ;;
      Ok (y :: ys)
  end.

(** The results of the tasks, put back by task index.  A task that
    raised makes the whole map raise once every task was run. *)
Fixpoint collect {B : Type} (done : list (result (list B)))
  : result (list B) :=
  match done with
  | [] => Ok []
  | r :: done' =>
      ys <- r ;;
      rest <- collect done' ;;
      Ok (ys ++ rest)
  end.

(** [mp.Pool(processes).map(f, items)].  Which worker runs which task,
    and when, does not show in the result: [MapResult] stores the result
    of task [i] at [i * chunksize]. *)
Definition map {A B : Type} (processes : nat) (f : A -> result B)
           (items : list A) : result (list B) :=
  if processes =? 0 then Raise ValueError
  else
    let size := chunksize processes (length items) in
    collect (List.map (mapstar f) (get_tasks (length items) size items)).

End Pool.

(** [filter(None, results)]: the results that are not [None] (a tuple of
    five items is never false). *)
Fixpoint filter_None {A : Type} (results : list (option A)) : list A :=
  match results with
  | [] => []
  | Some r :: results' => r :: filter_None results'
  | None :: results' => filter_None results'
  end.

(** What [open(path).readlines()] gives: the lines of the file, or [None]
    when there is no such file.  The files are files of text: one whose
    bytes do not decode ([UnicodeDecodeError]) is not among them. *)
Definition filesystem := str -> option (list str).

(** [num_cores] is [mp.cpu_count()]. *)
Definition process_log_data_parallel (fs : filesystem) (num_cores : nat)
           (file_path : str) : result (list record) :=
  match fs file_path with
  | None => Ok []
  | Some log_lines =>
      parsed <- Pool.map num_cores parse_log_line log_lines ;;
      Ok (filter_None parsed)
  end.

(** The reference of the specification: the parser applied to each line in
    turn, the non-empty results kept. *)
Fixpoint sequential_parse (lines : list str) : result (list record) :=
  match lines with
  | [] => Ok []
  | line :: lines' =>
      r <- parse_log_line line ;;
      rest <- sequential_parse lines' ;;
      Ok (match r with Some x => x :: rest | None => rest end)
  end.

(** ** The store: SQLite as far as the program's four statements use it *)

Fixpoint str_eqb (a b : str) : bool :=
  match a, b with
  | [], [] => true
  | x :: a', y :: b' => Ascii.eqb x y && str_eqb a' b'
  | _, _ => false
  end.

(** The order of the index on [IP_Address]: code point by code point. *)
Fixpoint str_leb (a b : str) : bool :=
  match a, b with
  | [], _ => true
  | _ :: _, [] => false
  | x :: a', y :: b' =>
      if code x <? code y then true
      else if code x =? code y then str_leb a' b'
      else false
  end.

Module Sqlite.

(** An entry of the schema table: a table, or an index on one column of
    a table.  A table named [Log_Entries] has the columns of the
    program's CREATE TABLE statement: the file is written by this
    program only. *)
Inductive schema_object : Type :=
| Table (name : str)
| Index (name table column : str).

Record row : Type := {
  LogID : Z;
  IP_Address : str;
  Timestamp : str;
  Method : str;
  URL : str;
  Status_Code : Z
}.

(** The database file: its schema, the rows of [Log_Entries] in rowid
    order, and the largest [LogID] handed out so far (AUTOINCREMENT). *)
Record store : Type := {
  schema : list schema_object;
  rows : list row;
  seq : Z
}.

(** A file that does not exist yet: [sqlite3.connect] creates it. *)
Definition empty_store : store :=
  {| schema := []; rows := []; seq := 0 |}.

Definition is_table (name : str) (o : schema_object) : bool :=
  match o with
  | Table n => str_eqb n name
  | Index _ _ _ => false
  end.

Definition is_index (name : str) (o : schema_object) : bool :=
  match o with
  | Table _ => false
  | Index n _ _ => str_eqb n name
  end.

Definition has_table (name : str) (st : store) : bool :=
  existsb (is_table name) (schema st).

Definition has_index (name : str) (st : store) : bool :=
  existsb (is_index name) (schema st).

Definition add_object (o : schema_object) (st : store) : store :=
  {| schema := schema st ++ [o]; rows := rows st; seq := seq st |}.

(** CREATE TABLE [IF NOT EXISTS] name (...) *)
Definition create_table (if_not_exists : bool) (name : str) (st : store)
  : result store :=
  if has_table name st then
    if if_not_exists then Ok st
    else Raise (OperationalError (s "table already exists"))
  else if has_index name st then
    Raise (OperationalError (s "there is already an index with this name"))
  else Ok (add_object (Table name) st).

(** CREATE INDEX [IF NOT EXISTS] name ON table (column) *)
Definition create_index (if_not_exists : bool) (name table column : str)
           (st : store) : result store :=
  if negb (has_table table st) then
    Raise (OperationalError (s "no such table"))
  else if has_table name st then
    Raise (OperationalError (s "there is already a table with this name"))
  else if has_index name st then
    if if_not_exists then Ok st
    else Raise (OperationalError (s "index already exists"))
  else Ok (add_object (Index name table column) st).

(** The integers SQLite stores, and the largest row id. *)
Definition int64_min : Z := (-9223372036854775808)%Z.
Definition int64_max : Z := 9223372036854775807%Z.

Definition storable (z : Z) : bool :=
  (int64_min <=? z)%Z && (z <=? int64_max)%Z.

(** INSERT INTO Log_Entries (IP_Address, Timestamp, Method, URL,
    Status_Code) VALUES (?, ?, ?, ?, ?), for one tuple: binding an integer
    outside 64 bits raises [OverflowError]; AUTOINCREMENT hands out the id
    after the counter and fails when the counter is at the largest id. *)
Definition insert (r : record) (st : store) : result store :=
  let '(ip, ts, me, url, status) := r in
  if negb (storable status) then Raise OverflowError
  else if (int64_max <=? seq st)%Z then
    Raise (OperationalError (s "database or disk is full"))
  else
    let id := (seq st + 1)%Z in
    Ok {| schema := schema st;
          rows := rows st ++
                  [{| LogID := id; IP_Address := ip; Timestamp := ts;
                      Method := me; URL := url; Status_Code := status |}];
          seq := id |}.

(** The tuples of an [executemany], one after the other; the first that
    fails ends the call. *)
Fixpoint insert_each (data : list record) (st : store) : result store :=
  match data with
  | [] => Ok st
  | r :: data' => st' <- insert r st ;; insert_each data' st'
  end.

(** [executemany] of that INSERT, then [commit].  When a tuple fails the
    exception leaves before the commit. *)
Definition executemany_insert (table : str) (data : list record)
           (st : store) : result store :=
  if has_table table st then insert_each data st
  else Raise (OperationalError (s "no such table")).

(** GROUP BY with COUNT: one more row for the group of [key]. *)
Fixpoint bump (key : str) (gs : list (str * Z)) : list (str * Z) :=
  match gs with
  | [] => [(key, 1%Z)]
  | (k, n) :: gs' =>
      if str_eqb k key then (k, (n + 1)%Z) :: gs'
      else (k, n) :: bump key gs'
  end.

Definition group_count (keys : list str) : list (str * Z) :=
  fold_left (fun gs key => bump key gs) keys [].

(** ORDER BY RequestCount DESC.  SQL leaves the order of groups with
    equal counts open; here they come in the order of the index. *)
Definition before (a b : str * Z) : bool :=
  (snd b <? snd a)%Z || ((snd a =? snd b)%Z && str_leb (fst a) (fst b)).

Fixpoint place (a : str * Z) (sorted : list (str * Z)) : list (str * Z) :=
  match sorted with
  | [] => [a]
  | b :: sorted' =>
      if before a b then a :: sorted else b :: place a sorted'
  end.

Definition order_by_count (gs : list (str * Z)) : list (str * Z) :=
  fold_right place [] gs.

(** SELECT IP_Address, COUNT(IP_Address) AS RequestCount FROM Log_Entries
    GROUP BY IP_Address ORDER BY RequestCount DESC LIMIT [limit] *)
Definition select_top (limit : nat) (table : str) (st : store)
  : result (list (str * Z)) :=
  if has_table table st then
    Ok (firstn limit
          (order_by_count (group_count (List.map IP_Address (rows st)))))
  else Raise (OperationalError (s "no such table")).

End Sqlite.

Import Sqlite.

Definition Log_Entries : str := s "Log_Entries".
Definition idx_ip : str := s "idx_ip".

(** [setup_database]: the store found at [DB_FILE] in, the store behind the
    returned connection out. *)
Definition setup_database (st : store) : result store :=
  st1 <- create_table true Log_Entries st ;;
  st2 <- create_index true idx_ip Log_Entries (s "IP_Address") st1 ;;
  Ok st2.

Definition bulk_load_data (st : store) (parsed_data : list record)
  : result store :=
  executemany_insert Log_Entries parsed_data st.

(** The query of [run_optimized_analysis] with [fetchall]: [top_ips]. *)
Definition top_ips (st : store) : result (list (str * Z)) :=
  select_top 10 Log_Entries st.

(** What [run_optimized_analysis] prints, line by line. *)
Inductive console_line : Type :=
| Banner
| AnalysisTime
| TopHeader
| Entry (ip : str) (count : Z)
| QueryFailed (msg : str).

(** [run_optimized_analysis]: the lines printed, and what the caller gets:
    the function has no [return], so [None] unless an exception leaves it.
    Only [sqlite3.OperationalError] is caught. *)
Definition run_optimized_analysis (st : store)
  : list console_line * result unit :=
  match top_ips st with
  | Ok top =>
      ([Banner; AnalysisTime; TopHeader]
         ++ List.map (fun g => Entry (fst g) (snd g)) top,
       Ok tt)
  | Raise (OperationalError msg) => ([Banner; QueryFailed msg], Ok tt)
  | Raise e => ([Banner], Raise e)
  end.

(** Bulk-load into a freshly set-up store, then aggregate. *)
Definition load_then_aggregate (parsed_data : list record)
  : result (list (str * Z)) :=
  st1 <- setup_database empty_store ;;
  st2 <- bulk_load_data st1 parsed_data ;;
  top_ips st2.

Definition total (top : list (str * Z)) : Z :=
  fold_right (fun g acc => (snd g + acc)%Z) 0%Z top.

(** Three lines as [readlines] gives them: two of the wire format, one
    that is not. *)
Definition sample_lines : list str :=
  [ render fields_post [nl]; s "not a log line" ++ [nl];
    render fields_huge [nl] ].

Definition sample_fs : filesystem := fun _ => Some sample_lines.

(** ** Notions the properties of the store are stated with *)

(** How many of [keys] are [k]. *)
Definition count_key (k : str) (keys : list str) : nat :=
  length (filter (fun x => str_eqb x k) keys).

(** The count the groups [gs] hold for [k]; 0 when there is no group. *)
Definition count_in (gs : list (str * Z)) (k : str) : Z :=
  match find (fun g => str_eqb (fst g) k) gs with
  | Some g => snd g
  | None => 0%Z
  end.

(** [b] does not count more than [a]. *)
Definition ge_count (a b : str * Z) : Prop := (snd b <= snd a)%Z.

Definition name_of (o : schema_object) : str :=
  match o with
  | Table n => n
  | Index n _ _ => n
  end.

Definition names (st : store) : list str := List.map name_of (schema st).

Definition address_of (r : record) : str :=
  let '(a, _, _, _, _) := r in a.

Definition status_of (r : record) : Z :=
  let '(_, _, _, _, status) := r in status.

(** Records the store takes after the counter [last]: every status in 64
    bits, and ids left for all of them. *)
Definition loadable (last : Z) (data : list record) : Prop :=
  Forall (fun r => storable (status_of r) = true) data /\
  (data <> [] -> (last + Z.of_nat (length data) <= int64_max)%Z).

(** The lines the parser keeps, in the order of the lines. *)
Definition kept (lines : list str) : list record :=
  filter_None
    (List.map (fun line => match parse_log_line line with
                           | Ok r => r
                           | Raise _ => None
                           end) lines).


Definition request_from (address : str) : record :=
  (address, s "01/Jan/2024:00:00:00 +0000", s "GET", s "/home", 200%Z).

(** One request from each of eleven addresses. *)
Definition eleven_requests : list record :=
  List.map request_from
    [ s "10.0.0.1"; s "10.0.0.2"; s "10.0.0.3"; s "10.0.0.4"; s "10.0.0.5";
      s "10.0.0.6"; s "10.0.0.7"; s "10.0.0.8"; s "10.0.0.9"; s "10.0.0.10";
      s "10.0.0.11" ].

(** The scenario of the specification: A five times, B three times, C
    eight times. *)
Definition scenario_requests : list record :=
  List.map request_from
    (repeat (s "A") 5 ++ repeat (s "B") 3 ++ repeat (s "C") 8).

(** ** Notions the proofs use *)

(** The text left does not go on with a character of the class. *)
Definition boundary (cls : cclass) (rest : str) : Prop :=
  match rest with
  | [] => True
  | c :: _ => in_class cls c = false
  end.

(** The groups a match of [LOG_PATTERN] sets on a line with fields [f]. *)
Definition groups_of (f : fields) : groups :=
  [ (6, f_size f); (5, f_status f); (4, f_path f); (3, f_method f);
    (2, f_timestamp f); (1, f_address f) ].


(** ** [str(n)] for an integer, as an f-string formats it

    The program formats the entries of [status_codes] only, of three
    digits each; the digits limit of the interpreter is far from them and
    is not modelled here. *)

Module PyStr.

Definition digit_char (d : Z) : ascii := ascii_of_nat (48 + Z.to_nat d).

(** The decimal digits of [n >= 0] before [acc], least significant digit
    first out; [fuel] bounds the number of digits. *)
Fixpoint digits_of (fuel : nat) (n : Z) (acc : str) : str :=
  match fuel with
  | 0 => acc
  | S fuel' =>
      let acc' := digit_char (n mod 10) :: acc in
      if (n <? 10)%Z then acc' else digits_of fuel' (n / 10) acc'
  end.

Definition py_str (n : Z) : str :=
  if (n <? 0)%Z then
    "-"%char :: digits_of (S (Z.to_nat (Z.log2 (- n)))) (- n) []
  else digits_of (S (Z.to_nat (Z.log2 n))) n [].

End PyStr.

Import PyStr.

(** ** Files

    A file is its text; encoding and the translation of line ends on
    writing are not modelled (POSIX: none). *)

Definition disk := str -> option str.

Definition cr : ascii := Eval cbv in ascii_of_nat 13.

(** [open(path, 'w')] with the [write]s that follow, then close. *)
Definition write_file (path content : str) (d : disk) : disk :=
  fun p => if str_eqb p path then Some content else d p.

(** [readlines] in text mode: a line ends after a line feed, a carriage
    return or the two in a row, each read as one line feed; what is left
    after the last of them is a last line.  [after_cr] tells that the
    character before was a carriage return, [line] is the line so far. *)
Fixpoint readlines_from (after_cr : bool) (line text : str) : list str :=
  match text with
  | [] => match line with [] => [] | _ => [line] end
  | c :: text' =>
      if Ascii.eqb c nl then
        if after_cr then readlines_from false line text'
        else (line ++ [nl]) :: readlines_from false [] text'
      else if Ascii.eqb c cr then
        (line ++ [nl]) :: readlines_from true [] text'
      else readlines_from false (line ++ [c]) text'
  end.

Definition readlines (text : str) : list str := readlines_from false [] text.

(** What [open(path).readlines()] gives on a disk. *)
Definition fs_of (d : disk) : filesystem :=
  fun path => option_map readlines (d path).

(** ** The sample log *)

Definition LOG_FILE : str := s "sample_access.log".

Definition common_ips : list str :=
  [ s "192.168.1.1"; s "10.0.0.5"; s "172.16.0.2"; s "173.15.2.1";
    s "192.162.1.1"; s "10.1.0.1"; s "152.63.8.1"; s "192.123.0.1";
    s "198.33.0.0"; s "8.1.8.8"; s "9.8.0.0"; s "11.1.11.1";
    s "192.68.1.1"; s "198.15.2.1"; s "198.63.1.1"; s "147.56.2.0";
    s "123.69.1.1"; s "196.153.78.1" ].

Definition common_urls : list str :=
  [ s "/home"; s "/product/view"; s "/about"; s "/api/data";
    s "/images/logo.png" ].

Definition status_codes : list Z := [200; 200; 200; 404; 500; 200]%Z.

(** [table[i % len(table)]] *)
Definition pick {A : Type} (table : list A) (i : nat) (default : A) : A :=
  nth (i mod length table) table default.

(** f'{ip} - - [{timestamp}] "GET {url} HTTP/1.1" {status} 1024\n' *)
Definition log_line (ip timestamp url : str) (status : Z) : str :=
  ip ++ s " - - [" ++ timestamp ++ s "] " ++ dq :: s "GET " ++ url ++
  s " HTTP/1.1" ++ dq :: sp :: py_str status ++ s " 1024" ++ [nl].

(** The line written in round [i] of the loop; [strftime i] is the text
    [time.strftime] gives in that round. *)
Definition sample_line (strftime : nat -> str) (i : nat) : str :=
  log_line (pick common_ips i []) (strftime i) (pick common_urls i [])
           (pick status_codes i 0%Z).

(** [generate_sample_log(num_lines)]: nothing when the file exists. *)
Definition generate_sample_log (strftime : nat -> str) (num_lines : Z)
           (d : disk) : disk :=
  match d LOG_FILE with
  | Some _ => d
  | None =>
      write_file LOG_FILE
        (concat (List.map (sample_line strftime)
                          (List.seq 0 (Z.to_nat num_lines))))
        d
  end.

(** ** The whole run *)

(** The two files of the program: the log on the disk and the database. *)
Record world : Type := {
  files : disk;
  database : store
}.

(** [main()]: the world it leaves and what [run_optimized_analysis]
    printed, or the exception that ended it. *)
Definition main (strftime : nat -> str) (num_cores : nat) (w : world)
  : result (world * list console_line) :=
  let d := generate_sample_log strftime 10000 (files w) in
  conn <- setup_database (database w) ;;
  parsed_records <- process_log_data_parallel (fs_of d) num_cores LOG_FILE ;;
  match parsed_records with
  | [] => Ok ({| files := d; database := conn |}, [])
  | _ :: _ =>
      conn' <- bulk_load_data conn parsed_records ;;
      let (printed, returned) := run_optimized_analysis conn' in
      _ <- returned ;;
      Ok ({| files := d; database := conn' |}, printed)
  end.

(** ** Notions the further properties are stated with *)

(** A timestamp text that can stand between the brackets and on one line:
    not empty, no closing bracket, no line end. *)
Definition timestamp_text (t : str) : Prop :=
  t <> [] /\
  Forall (fun c => c <> "]"%char /\ c <> nl /\ c <> cr) t.

(** The record the sample log holds for round [i]. *)
Definition sample_record (strftime : nat -> str) (i : nat) : record :=
  (pick common_ips i [], strftime i, s "GET", pick common_urls i [],
   pick status_codes i 0%Z).

(** The row [bulk_load_data] makes of a record under the id [id]. *)
Definition row_of (id : Z) (r : record) : row :=
  let '(ip, ts, me, url, status) := r in
  {| LogID := id; IP_Address := ip; Timestamp := ts; Method := me;
     URL := url; Status_Code := status |}.

(** The rows of [data] under the ids after [last]. *)
Fixpoint rows_of (last : Z) (data : list record) : list row :=
  match data with
  | [] => []
  | r :: data' => row_of (last + 1) r :: rows_of (last + 1) data'
  end.

(** The ids of the rows grow and none is past the counter. *)
Definition ids_in_order (st : store) : Prop :=
  StronglySorted Z.lt (List.map LogID (rows st)) /\
  Forall (fun id => (id <= seq st)%Z) (List.map LogID (rows st)).

(** The fields of the line written in round [i]. *)
Definition sample_fields (strftime : nat -> str) (i : nat) : fields :=
  {| f_address := pick common_ips i []; f_user1 := s "-"; f_user2 := s "-";
     f_timestamp := strftime i; f_method := s "GET";
     f_path := pick common_urls i []; f_protocol := s "HTTP/1.1";
     f_status := py_str (pick status_codes i 0%Z); f_size := s "1024" |}.

(** No line end in a text. *)
Definition one_line (t : str) : Prop :=
  Forall (fun c => c <> nl /\ c <> cr) t.

Definition clock_2024 : nat -> str :=
  fun _ => s "01/Jan/2024:00:00:00 +0000".

Definition no_files : disk := fun _ => None.

(** * Proofs *)

(** ** Characters *)

Ltac each_char c :=
  destruct c as [[] [] [] [] [] [] [] []]; vm_compute; try reflexivity;
  try discriminate; auto.

Lemma digit_not_skipped c : is_digit c = true -> skipped c = false.
Proof. each_char c. Qed.

Lemma digit_not_space c : is_digit c = true -> is_space c = false.
Proof. each_char c. Qed.

Lemma digit_not_sign c :
  is_digit c = true ->
  Ascii.eqb c "-"%char = false /\ Ascii.eqb c "+"%char = false.
Proof. each_char c. Qed.

Lemma digit_value_bounds c d :
  digit_value c = Some d -> (0 <= d <= 9)%Z /\ d = (Z.of_nat (code c) - 48)%Z.
Proof.
  unfold digit_value. destruct (is_digit c) eqn:E; [|discriminate].
  intros H. inversion H; subst. split; [|reflexivity].
  unfold is_digit in E. apply andb_true_iff in E. destruct E as [E1 E2].
  apply Nat.leb_le in E1. apply Nat.leb_le in E2. lia.
Qed.

Lemma str_eqb_eq a b : str_eqb a b = true <-> a = b.
Proof.
  revert b. induction a as [|x a IH]; intros [|y b]; simpl;
    try (split; [discriminate | congruence]); try tauto.
  rewrite andb_true_iff, Ascii.eqb_eq, IH. split.
  - intros [-> ->]. reflexivity.
  - intros H. inversion H. auto.
Qed.

Lemma str_eqb_refl a : str_eqb a a = true.
Proof. apply str_eqb_eq. reflexivity. Qed.

Lemma str_leb_total a b : str_leb a b = false -> str_leb b a = true.
Proof.
  revert b. induction a as [|x a IH]; intros [|y b]; simpl; try congruence.
  destruct (code x <? code y) eqn:L1; [discriminate|].
  destruct (code x =? code y) eqn:E1.
  - intros H. apply Nat.eqb_eq in E1. rewrite <- E1, Nat.ltb_irrefl, Nat.eqb_refl. auto.
  - intros _. apply Nat.ltb_ge in L1. apply Nat.eqb_neq in E1.
    assert (L2 : (code y <? code x) = true) by (apply Nat.ltb_lt; lia).
    rewrite L2. reflexivity.
Qed.

(** ** The matcher *)

Lemma repeat_greedy_boundary cls k taken rest :
  boundary cls rest -> repeat_greedy cls k taken rest = None.
Proof.
  destruct rest as [|c rest]; simpl; [reflexivity|].
  intros ->. reflexivity.
Qed.

(** The whole run is taken when the rest of the pattern accepts it. *)
Lemma repeat_greedy_longest cls k w :
  forall taken rest r,
    word (in_class cls) w -> boundary cls rest ->
    k (taken ++ w) rest = Some r ->
    repeat_greedy cls k taken (w ++ rest) = Some r.
Proof.
  induction w as [|c w IH]; intros taken rest r [Hne Hall] Hb Hk.
  - congruence.
  - inversion Hall as [|? ? Hc Hw]; subst. simpl. rewrite Hc.
    destruct w as [|c' w'].
    + simpl. rewrite repeat_greedy_boundary by exact Hb. exact Hk.
    + rewrite (IH (taken ++ [c]) rest r); auto.
      * split; [discriminate | assumption].
      * rewrite <- app_assoc. exact Hk.
Qed.

(** One character is given back when the rest of the pattern refuses the
    whole run and accepts the run without its last character. *)
Lemma repeat_greedy_give_back cls k w c :
  forall taken rest r,
    word (in_class cls) w -> in_class cls c = true -> boundary cls rest ->
    k (taken ++ w ++ [c]) rest = None ->
    k (taken ++ w) (c :: rest) = Some r ->
    repeat_greedy cls k taken (w ++ c :: rest) = Some r.
Proof.
  induction w as [|a w IH]; intros taken rest r [Hne Hall] Hc Hb Hno Hk.
  - congruence.
  - inversion Hall as [|? ? Ha Hw]; subst. simpl. rewrite Ha.
    destruct w as [|a' w'].
    + simpl. rewrite Hc.
      rewrite repeat_greedy_boundary by exact Hb.
      simpl in Hno. rewrite <- app_assoc. simpl. rewrite Hno. exact Hk.
    + rewrite (IH (taken ++ [a]) rest r); auto.
      * split; [discriminate | assumption].
      * rewrite <- app_assoc. exact Hno.
      * rewrite <- app_assoc. exact Hk.
Qed.

(** Whatever the run taken, it is a non-empty word of the class. *)
Lemma repeat_greedy_sound cls k rest :
  forall taken r,
    repeat_greedy cls k taken rest = Some r ->
    exists w rest', word (in_class cls) w /\ rest = w ++ rest' /\
                    k (taken ++ w) rest' = Some r.
Proof.
  induction rest as [|c rest IH]; intros taken r H; simpl in H.
  - discriminate.
  - destruct (in_class cls c) eqn:Hc; [|discriminate].
    destruct (repeat_greedy cls k (taken ++ [c]) rest) as [m|] eqn:Hr.
    + inversion H; subst m.
      destruct (IH _ _ Hr) as (w & rest' & [Hne Hall] & -> & Hk).
      exists (c :: w), rest'. repeat split.
      * discriminate.
      * constructor; assumption.
      * rewrite <- app_assoc in Hk. exact Hk.
    + exists [c], rest. repeat split.
      * discriminate.
      * constructor; [assumption | constructor].
      * exact H.
Qed.

Lemma run_literal c p pos rest m :
  run (Literal c :: p) pos (c :: rest) m = run p (S pos) rest m.
Proof. simpl. rewrite Ascii.eqb_refl. reflexivity. Qed.

Lemma run_subpattern g cls p pos w rest m r :
  word (in_class cls) w -> boundary cls rest ->
  run p (pos + length w) rest ((g, w) :: m) = Some r ->
  run (Subpattern g cls :: p) pos (w ++ rest) m = Some r.
Proof.
  intros Hw Hb Hk. simpl. apply repeat_greedy_longest; assumption.
Qed.

Lemma run_max_repeat cls p pos w rest m r :
  word (in_class cls) w -> boundary cls rest ->
  run p (pos + length w) rest m = Some r ->
  run (Max_repeat cls :: p) pos (w ++ rest) m = Some r.
Proof.
  intros Hw Hb Hk. simpl. apply repeat_greedy_longest; assumption.
Qed.

Lemma run_max_repeat_give_back cls p pos w c rest m r :
  word (in_class cls) w -> in_class cls c = true -> boundary cls rest ->
  run p (pos + length (w ++ [c])) rest m = None ->
  run p (pos + length w) (c :: rest) m = Some r ->
  run (Max_repeat cls :: p) pos (w ++ c :: rest) m = Some r.
Proof.
  intros Hw Hc Hb Hno Hk. simpl.
  apply repeat_greedy_give_back; assumption.
Qed.

Lemma run_literal_inv c p pos rest m r :
  run (Literal c :: p) pos rest m = Some r ->
  exists rest', rest = c :: rest' /\ run p (S pos) rest' m = Some r.
Proof.
  simpl. destruct rest as [|c' rest']; [discriminate|].
  destruct (Ascii.eqb c' c) eqn:E; [|discriminate].
  apply Ascii.eqb_eq in E. subst. eauto.
Qed.

Lemma run_subpattern_inv g cls p pos rest m r :
  run (Subpattern g cls :: p) pos rest m = Some r ->
  exists w rest', word (in_class cls) w /\ rest = w ++ rest' /\
                  run p (pos + length w) rest' ((g, w) :: m) = Some r.
Proof. simpl. intros H. apply repeat_greedy_sound in H. exact H. Qed.

Lemma run_max_repeat_inv cls p pos rest m r :
  run (Max_repeat cls :: p) pos rest m = Some r ->
  exists w rest', word (in_class cls) w /\ rest = w ++ rest' /\
                  run p (pos + length w) rest' m = Some r.
Proof. simpl. intros H. apply repeat_greedy_sound in H. exact H. Qed.

Lemma at_end_inv rest : at_end rest = true -> rest = [] \/ rest = [nl].
Proof.
  destruct rest as [|c [|c' rest]]; simpl; auto; [|discriminate].
  intros H. apply Ascii.eqb_eq in H. subst. auto.
Qed.

Lemma run_at_beginning p rest m :
  run (At_beginning :: p) 0 rest m = run p 0 rest m.
Proof. reflexivity. Qed.

Lemma run_at_end_inv p pos rest m r :
  run (At_end :: p) pos rest m = Some r ->
  (rest = [] \/ rest = [nl]) /\ run p pos rest m = Some r.
Proof.
  simpl. destruct (at_end rest) eqn:E; [|discriminate].
  intros H. split; [apply at_end_inv; exact E | exact H].
Qed.

(** ** [LOG_PATTERN] accepts exactly the wire format *)

Lemma match_wire_format f tail :
  well_formed f -> tail = [] \/ tail = [nl] ->
  re_match LOG_PATTERN (render f tail) = Some (groups_of f).
Proof.
  intros (Ha & Hu1 & Hu2 & Ht & Hm & Hp & Hpr & Hs & Hz) Htail.
  unfold re_match, LOG_PATTERN, render.
  rewrite run_at_beginning.
  apply run_subpattern; [exact Ha | reflexivity |]. rewrite run_literal.
  apply run_max_repeat; [exact Hu1 | reflexivity |]. rewrite run_literal.
  apply run_max_repeat; [exact Hu2 | reflexivity |].
  rewrite !run_literal.
  apply run_subpattern; [exact Ht | reflexivity |]. rewrite !run_literal.
  apply run_subpattern; [exact Hm | reflexivity |]. rewrite run_literal.
  apply run_subpattern; [exact Hp | reflexivity |]. rewrite run_literal.
  apply run_max_repeat_give_back;
    [exact Hpr | reflexivity | reflexivity | reflexivity |].
  rewrite !run_literal.
  apply run_subpattern; [exact Hs | reflexivity |]. rewrite run_literal.
  apply run_subpattern; [exact Hz | |].
  - destruct Htail as [-> | ->]; [exact I | reflexivity].
  - destruct Htail as [-> | ->]; reflexivity.
Qed.

Lemma match_inv line m :
  re_match LOG_PATTERN line = Some m ->
  exists f, wire_format line f /\ m = groups_of f.
Proof.
  unfold re_match, LOG_PATTERN. rewrite run_at_beginning. intros H.
  apply run_subpattern_inv in H. destruct H as (a & r1 & Ha & -> & H).
  apply run_literal_inv in H. destruct H as (r2 & -> & H).
  apply run_max_repeat_inv in H. destruct H as (u1 & r3 & Hu1 & -> & H).
  apply run_literal_inv in H. destruct H as (r4 & -> & H).
  apply run_max_repeat_inv in H. destruct H as (u2 & r5 & Hu2 & -> & H).
  apply run_literal_inv in H. destruct H as (r6 & -> & H).
  apply run_literal_inv in H. destruct H as (r7 & -> & H).
  apply run_subpattern_inv in H. destruct H as (t & r8 & Ht & -> & H).
  apply run_literal_inv in H. destruct H as (r9 & -> & H).
  apply run_literal_inv in H. destruct H as (r10 & -> & H).
  apply run_literal_inv in H. destruct H as (r11 & -> & H).
  apply run_subpattern_inv in H. destruct H as (me & r12 & Hme & -> & H).
  apply run_literal_inv in H. destruct H as (r13 & -> & H).
  apply run_subpattern_inv in H. destruct H as (pa & r14 & Hpa & -> & H).
  apply run_literal_inv in H. destruct H as (r15 & -> & H).
  apply run_max_repeat_inv in H. destruct H as (pr & r16 & Hpr & -> & H).
  apply run_literal_inv in H. destruct H as (r17 & -> & H).
  apply run_literal_inv in H. destruct H as (r18 & -> & H).
  apply run_subpattern_inv in H. destruct H as (st & r19 & Hst & -> & H).
  apply run_literal_inv in H. destruct H as (r20 & -> & H).
  apply run_subpattern_inv in H. destruct H as (sz & r21 & Hsz & -> & H).
  apply run_at_end_inv in H. destruct H as (Hend & H).
  simpl in H. inversion H; subst m.
  exists {| f_address := a; f_user1 := u1; f_user2 := u2; f_timestamp := t;
            f_method := me; f_path := pa; f_protocol := pr; f_status := st;
            f_size := sz |}.
  split; [|reflexivity]. split.
  - unfold well_formed; simpl. tauto.
  - unfold render; simpl. destruct Hend as [-> | ->]; auto.
Qed.

Lemma match_none line :
  ~ matches_wire_format line -> re_match LOG_PATTERN line = None.
Proof.
  intros Hno. destruct (re_match LOG_PATTERN line) as [m|] eqn:E; auto.
  exfalso. apply Hno. destruct (match_inv _ E) as (f & Hf & _).
  exists f. exact Hf.
Qed.

(** ** [int] on a run of digits *)

Lemma lstrip_digits w :
  Forall (fun c => is_digit c = true) w -> lstrip w = w.
Proof.
  intros H. destruct H as [|c w Hc Hw]; simpl; [reflexivity|].
  rewrite (digit_not_skipped _ Hc). reflexivity.
Qed.

Lemma strip_digits w :
  Forall (fun c => is_digit c = true) w -> strip w = w.
Proof.
  intros H. unfold strip. rewrite (lstrip_digits H).
  rewrite lstrip_digits by (apply Forall_rev; exact H).
  apply rev_involutive.
Qed.

Lemma digits_run w :
  forall acc b,
    Forall (fun c => is_digit c = true) w -> w <> [] \/ b = true ->
    digits acc b w = Some (fold_left decimal_step w acc).
Proof.
  induction w as [|c w IH]; intros acc b Hall Hb; simpl.
  - destruct Hb as [Hb | ->]; [congruence | reflexivity].
  - inversion Hall as [|? ? Hc Hw]; subst.
    unfold digit_value. rewrite Hc. apply IH; auto.
Qed.

Lemma decimal_step_nonneg w :
  forall acc,
    Forall (fun c => is_digit c = true) w -> (0 <= acc)%Z ->
    (0 <= fold_left decimal_step w acc)%Z.
Proof.
  induction w as [|c w IH]; intros acc Hall Hacc; simpl; [exact Hacc|].
  inversion Hall as [|? ? Hc Hw]; subst. apply IH; [exact Hw|].
  destruct (digit_value_bounds c (d := (Z.of_nat (code c) - 48)%Z)) as [B _].
  - unfold digit_value. rewrite Hc. reflexivity.
  - unfold decimal_step. lia.
Qed.

Lemma digit_count_digits w :
  Forall (fun c => is_digit c = true) w -> digit_count w = length w.
Proof.
  unfold digit_count. induction 1 as [|c w Hc _ IH]; simpl; [reflexivity|].
  rewrite Hc. simpl. rewrite IH. reflexivity.
Qed.

(** [int] on a run of digits: its value up to the limit, [ValueError]
    past it. *)
Lemma py_int_run w :
  word (in_class Digit) w ->
  py_int w =
  if (int_max_str_digits <? Z.of_nat (length w))%Z then Raise ValueError
  else Ok (decimal w).
Proof.
  intros [Hne Hall]. unfold py_int. rewrite (strip_digits Hall).
  rewrite (digit_count_digits Hall).
  destruct w as [|c w']; [congruence|].
  inversion Hall as [|? ? Hc Hw]; subst.
  destruct (digit_not_sign _ Hc) as [-> ->].
  rewrite digits_run; [reflexivity | exact Hall | left; discriminate].
Qed.

Lemma py_int_digits w :
  word (in_class Digit) w ->
  (Z.of_nat (length w) <= int_max_str_digits)%Z ->
  py_int w = Ok (decimal w).
Proof.
  intros Hw Hl. rewrite (py_int_run Hw).
  destruct (Z.ltb_spec int_max_str_digits (Z.of_nat (length w)));
    [lia | reflexivity].
Qed.

Lemma py_int_long w :
  word (in_class Digit) w ->
  (int_max_str_digits < Z.of_nat (length w))%Z ->
  py_int w = Raise ValueError.
Proof.
  intros Hw Hl. rewrite (py_int_run Hw).
  destruct (Z.ltb_spec int_max_str_digits (Z.of_nat (length w)));
    [reflexivity | lia].
Qed.

Lemma decimal_nonneg w : word (in_class Digit) w -> (0 <= decimal w)%Z.
Proof.
  intros [_ Hall]. apply decimal_step_nonneg; [exact Hall | lia].
Qed.

(** ** The line parser *)

Lemma match_of_wire_format line f :
  wire_format line f -> re_match LOG_PATTERN line = Some (groups_of f).
Proof.
  intros [Hf [-> | ->]]; apply match_wire_format; auto.
Qed.

(** On a line of the wire format the parser is [int] on the status. *)
Lemma parse_by_status line f :
  wire_format line f ->
  parse_log_line line =
  (status <- py_int (f_status f) ;;
   Ok (Some (f_address f, f_timestamp f, f_method f, f_path f, status))).
Proof.
  intros H. unfold parse_log_line. rewrite (match_of_wire_format H).
  reflexivity.
Qed.

Lemma parse_wire_format line f :
  wire_format line f ->
  (Z.of_nat (length (f_status f)) <= int_max_str_digits)%Z ->
  parse_log_line line = Ok (Some (record_of f)).
Proof.
  intros H Hl. rewrite (parse_by_status H).
  destruct H as [(_ & _ & _ & _ & _ & _ & _ & Hs & _) _].
  rewrite (py_int_digits Hs Hl). reflexivity.
Qed.

Lemma parse_long_status line f :
  wire_format line f ->
  (int_max_str_digits < Z.of_nat (length (f_status f)))%Z ->
  parse_log_line line = Raise ValueError.
Proof.
  intros H Hl. rewrite (parse_by_status H).
  destruct H as [(_ & _ & _ & _ & _ & _ & _ & Hs & _) _].
  rewrite (py_int_long Hs Hl). reflexivity.
Qed.

Lemma parse_other line :
  ~ matches_wire_format line -> parse_log_line line = Ok None.
Proof.
  intros H. unfold parse_log_line. rewrite (match_none H). reflexivity.
Qed.

(** The three ways a call of the parser ends. *)
Lemma parse_cases line :
  (exists f, wire_format line f /\
             (Z.of_nat (length (f_status f)) <= int_max_str_digits)%Z /\
             parse_log_line line = Ok (Some (record_of f))) \/
  (exists f, wire_format line f /\
             (int_max_str_digits < Z.of_nat (length (f_status f)))%Z /\
             parse_log_line line = Raise ValueError) \/
  (~ matches_wire_format line /\ parse_log_line line = Ok None).
Proof.
  destruct (re_match LOG_PATTERN line) as [m|] eqn:E.
  - destruct (match_inv _ E) as (f & Hf & _).
    destruct (Z.le_gt_cases (Z.of_nat (length (f_status f)))
                            int_max_str_digits) as [Hl | Hl].
    + left. exists f. split; [exact Hf|]. split; [exact Hl|].
      apply (@parse_wire_format line f); assumption.
    + right. left. exists f. split; [exact Hf|]. split; [exact Hl|].
      apply (@parse_long_status line f); assumption.
  - right. right. split.
    + intros [f Hf]. rewrite (match_of_wire_format Hf) in E. discriminate.
    + unfold parse_log_line. rewrite E. reflexivity.
Qed.

Lemma parse_record_inv line r :
  parse_log_line line = Ok (Some r) ->
  exists f, wire_format line f /\ r = record_of f.
Proof.
  intros H.
  destruct (parse_cases line) as [(f & Hf & _ & E) | [(f & _ & _ & E) | (_ & E)]].
  - exists f. split; [exact Hf | congruence].
  - congruence.
  - congruence.
Qed.

(** ** A line has one reading *)

Lemma split_unique cls w1 :
  forall r1 w2 r2,
    Forall (fun c => in_class cls c = true) w1 ->
    Forall (fun c => in_class cls c = true) w2 ->
    boundary cls r1 -> boundary cls r2 ->
    w1 ++ r1 = w2 ++ r2 -> w1 = w2 /\ r1 = r2.
Proof.
  induction w1 as [|c w1 IH]; intros r1 w2 r2 H1 H2 B1 B2 E.
  - destruct w2 as [|c2 w2]; [auto|]. simpl in E. subst r1. simpl in B1.
    inversion H2; subst. congruence.
  - destruct w2 as [|c2 w2].
    + simpl in E. subst r2. simpl in B2. inversion H1; subst. congruence.
    + simpl in E. inversion E; subst. inversion H1; inversion H2; subst.
      destruct (IH r1 w2 r2) as [-> ->]; auto.
Qed.

Lemma word_snoc cls w c :
  word (in_class cls) w -> in_class cls c = true ->
  Forall (fun x => in_class cls x = true) (w ++ [c]).
Proof.
  intros [_ H] Hc. apply Forall_app. split; [exact H|].
  constructor; [exact Hc | constructor].
Qed.

Lemma well_formed_tokenized f : well_formed f -> tokenized f.
Proof.
  intros (Ha & Hu1 & Hu2 & Ht & Hm & Hp & Hpr & [Hne Hs] & Hz).
  unfold tokenized.
  refine (conj Ha (conj Hu1 (conj Hu2 (conj Ht (conj Hm (conj Hp
           (conj Hpr (conj (conj Hne _) Hz)))))))).
  eapply Forall_impl; [|exact Hs].
  intros c Hc. simpl in *. rewrite (digit_not_space _ Hc). reflexivity.
Qed.

Ltac peel C E H1 H2 :=
  apply split_unique with (cls := C) in E;
  [ destruct E as [? E]
  | apply H1 | apply H2 | reflexivity | reflexivity ].

Lemma render_unique f g t u :
  tokenized f -> tokenized g ->
  boundary NotSpace t -> boundary NotSpace u ->
  render f t = render g u -> f = g /\ t = u.
Proof.
  intros (Fa & Fu1 & Fu2 & Ft & Fm & Fp & Fpr & Fs & Fz)
         (Ga & Gu1 & Gu2 & Gt & Gm & Gp & Gpr & Gs & Gz) Bt Bu E.
  destruct f as [fa fu1 fu2 ft fm fp fpr fs fz].
  destruct g as [ga gu1 gu2 gt gm gp gpr gs gz].
  unfold render in E. simpl in *.
  peel NotSpace E Fa Ga. injection E as E.
  peel NotSpace E Fu1 Gu1. injection E as E.
  peel NotSpace E Fu2 Gu2. injection E as E.
  peel (NotChar "]"%char) E Ft Gt. injection E as E.
  peel NotSpace E Fm Gm. injection E as E.
  peel NotSpace E Fp Gp. injection E as E.
  change (fpr ++ dq :: sp :: fs ++ sp :: fz ++ t)
    with (fpr ++ [dq] ++ sp :: fs ++ sp :: fz ++ t) in E.
  change (gpr ++ dq :: sp :: gs ++ sp :: gz ++ u)
    with (gpr ++ [dq] ++ sp :: gs ++ sp :: gz ++ u) in E.
  rewrite !app_assoc in E. rewrite <- !app_assoc in E.
  rewrite (app_assoc fpr [dq]), (app_assoc gpr [dq]) in E.
  apply split_unique with (cls := NotSpace) in E;
    [ | apply word_snoc; [exact Fpr | reflexivity]
      | apply word_snoc; [exact Gpr | reflexivity]
      | reflexivity | reflexivity ].
  destruct E as [Epr E]. apply app_inj_tail in Epr. destruct Epr as [Epr _].
  injection E as E.
  peel NotSpace E Fs Gs. injection E as E.
  apply split_unique with (cls := NotSpace) in E;
    [ | apply Fz | apply Gz | exact Bt | exact Bu ].
  destruct E as [? E]. subst. auto.
Qed.

Lemma line_end_boundary tail : line_end tail -> boundary NotSpace tail.
Proof. intros [-> | ->]; [exact I | reflexivity]. Qed.

Lemma count_char_app c a b :
  count_char c (a ++ b) = count_char c a + count_char c b.
Proof. unfold count_char. rewrite filter_app, length_app. reflexivity. Qed.

Lemma count_char_cons c x a :
  count_char c (x :: a) = (if Ascii.eqb c x then 1 else 0) + count_char c a.
Proof. unfold count_char. simpl. destruct (Ascii.eqb c x); reflexivity. Qed.

Lemma render_spaces f tail : 8 <= count_char sp (render f tail).
Proof.
  unfold render.
  repeat (rewrite ?count_char_app, ?count_char_cons).
  unfold sp, dq. simpl. lia.
Qed.

Lemma render_quotes f tail : 2 <= count_char dq (render f tail).
Proof.
  unfold render.
  repeat (rewrite ?count_char_app, ?count_char_cons).
  unfold sp, dq. simpl. lia.
Qed.

Lemma render_brackets f tail :
  In "["%char (render f tail) /\ In "]"%char (render f tail).
Proof.
  unfold render. split.
  - do 3 (apply in_or_app; right; right). left. reflexivity.
  - do 3 (apply in_or_app; right; right). right.
    apply in_or_app. right. left. reflexivity.
Qed.

Lemma wire_format_render line :
  matches_wire_format line ->
  exists f tail, well_formed f /\ line_end tail /\ line = render f tail.
Proof.
  intros (f & Hf & [-> | ->]).
  - exists f, []. split; [exact Hf | split; [left|]; reflexivity].
  - exists f, [nl]. split; [exact Hf | split; [right|]; reflexivity].
Qed.

Lemma malformed_not_wire_format line :
  malformed line -> ~ matches_wire_format line.
Proof.
  intros Hbad Hm. apply wire_format_render in Hm.
  destruct Hm as (g & u & Hg & Hu & E).
  destruct Hbad as [ | line Hno | line Hno | line Hq | f tail Hf Hs Ht
                   | line Hsp | f extra Hf ].
  - pose proof (render_spaces g u) as H. rewrite <- E in H.
    unfold count_char in H. simpl in H. lia.
  - apply Hno. rewrite E. apply render_brackets.
  - apply Hno. rewrite E. apply render_brackets.
  - pose proof (render_quotes g u) as H. rewrite <- E in H. lia.
  - apply render_unique in E;
      [ | exact Hf | apply well_formed_tokenized; exact Hg
        | apply line_end_boundary; exact Ht
        | apply line_end_boundary; exact Hu ].
    destruct E as [-> _]. apply Hs.
    destruct Hg as (_ & _ & _ & _ & _ & _ & _ & [_ Hd] & _). exact Hd.
  - pose proof (render_spaces g u) as H. rewrite <- E in H. lia.
  - apply render_unique in E;
      [ | apply well_formed_tokenized; exact Hf
        | apply well_formed_tokenized; exact Hg
        | reflexivity
        | apply line_end_boundary; exact Hu ].
    destruct E as [_ <-]. destruct Hu; discriminate.
Qed.

Lemma parse_malformed line : malformed line -> parse_log_line line = Ok None.
Proof.
  intros H. apply parse_other. apply malformed_not_wire_format. exact H.
Qed.

Lemma well_formed_post : well_formed fields_post.
Proof.
  unfold well_formed, word; simpl.
  repeat split; try discriminate; repeat (constructor; try reflexivity).
Qed.

Lemma well_formed_huge : well_formed fields_huge.
Proof.
  unfold well_formed, word; simpl.
  repeat split; try discriminate; repeat (constructor; try reflexivity).
Qed.

Lemma signed_status_malformed f tail :
  well_formed f -> line_end tail ->
  malformed (render (with_status f ("-"%char :: f_status f)) tail).
Proof.
  intros Hf Ht. pose proof (well_formed_tokenized Hf) as Hk.
  destruct Hk as (Ha & Hu1 & Hu2 & Hts & Hm & Hp & Hpr & [Hne Hs] & Hz).
  apply non_numeric_status; [| |exact Ht].
  - unfold tokenized; simpl.
    refine (conj Ha (conj Hu1 (conj Hu2 (conj Hts (conj Hm (conj Hp
             (conj Hpr (conj (conj _ _) Hz)))))))).
    + discriminate.
    + constructor; [reflexivity | exact Hs].
  - simpl. intros H. inversion H; subst. discriminate.
Qed.

Lemma wire_format_one_reading line f g :
  wire_format line f -> wire_format line g -> f = g.
Proof.
  intros [Hf Ef] [Hg Eg].
  assert (E : exists t u, line_end t /\ line_end u /\
                          render f t = render g u).
  { destruct Ef as [-> | ->], Eg as [Eg | Eg];
      eexists _, _; (split; [|split; [|exact Eg]]);
      (left; reflexivity) || (right; reflexivity). }
  destruct E as (t & u & Ht & Hu & E).
  apply render_unique in E;
    [ tauto
    | apply well_formed_tokenized; exact Hf
    | apply well_formed_tokenized; exact Hg
    | apply line_end_boundary; exact Ht
    | apply line_end_boundary; exact Hu ].
Qed.

Lemma short_status_of line f :
  wire_format line f ->
  (Z.of_nat (length (f_status f)) <= int_max_str_digits)%Z ->
  short_status line.
Proof.
  intros Hf Hl g Hg. rewrite (wire_format_one_reading Hg Hf). exact Hl.
Qed.

Lemma short_status_other line : ~ matches_wire_format line -> short_status line.
Proof. intros H f Hf. exfalso. apply H. exists f. exact Hf. Qed.

Lemma nines_word n : 1 <= n -> word (in_class Digit) (repeat "9"%char n).
Proof.
  intros Hn. split.
  - destruct n; [lia | discriminate].
  - apply Forall_forall. intros c Hc. apply repeat_spec in Hc. subst c.
    reflexivity.
Qed.

Lemma well_formed_nines n :
  1 <= n -> well_formed (with_status fields_post (repeat "9"%char n)).
Proof.
  intros Hn. destruct well_formed_post as (Ha & Hu1 & Hu2 & Ht & Hm & Hp
                                            & Hpr & _ & Hz).
  unfold well_formed, with_status;
    cbn [f_address f_user1 f_user2 f_timestamp f_method f_path f_protocol
         f_status f_size].
  refine (conj Ha (conj Hu1 (conj Hu2 (conj Ht (conj Hm (conj Hp
           (conj Hpr (conj (nines_word Hn) Hz)))))))).
Qed.

Lemma wire_format_nines n tail :
  1 <= n -> line_end tail ->
  wire_format (render (with_status fields_post (repeat "9"%char n)) tail)
              (with_status fields_post (repeat "9"%char n)).
Proof.
  intros Hn Ht. split; [apply well_formed_nines; exact Hn|].
  destruct Ht as [-> | ->]; auto.
Qed.

(** ** The line parser: the properties of the specification *)

(** C1, as the code has it: every line of the wire format whose status has
    at most 4300 digits parses to the record of its address, timestamp,
    method, path and status fields, the status read as a decimal number;
    whenever the pattern matches and the parser returns, the record holds
    groups 1 to 4 as captured and the number that group 5 spells; the POST
    line of the scenario parses to the record the specification gives;
    parsing a line again gives the same result. *)
Theorem C1_parse_wire_format :
  (forall line f,
      wire_format line f ->
      (Z.of_nat (length (f_status f)) <= int_max_str_digits)%Z ->
      parse_log_line line =
      Ok (Some (f_address f, f_timestamp f, f_method f, f_path f,
                decimal (f_status f)))) /\
  (forall line m r,
      re_match LOG_PATTERN line = Some m ->
      parse_log_line line = Ok r ->
      exists a t me p st,
        group m 1 = Some a /\ group m 2 = Some t /\ group m 3 = Some me /\
        group m 4 = Some p /\ group m 5 = Some st /\
        r = Some (a, t, me, p, decimal st)) /\
  parse_log_line line_post =
  Ok (Some (s "10.0.0.1", s "01/Jan/2024:00:00:00 +0000", s "POST",
            s "/api/data", 404%Z)) /\
  (forall line r1 r2,
      parse_log_line line = r1 -> parse_log_line line = r2 -> r1 = r2).
Proof.
  split; [|split; [|split]].
  - intros line f H Hl. apply (parse_wire_format H Hl).
  - intros line m r Hm Hr. destruct (match_inv _ Hm) as (f & Hf & ->).
    exists (f_address f), (f_timestamp f), (f_method f), (f_path f),
      (f_status f).
    repeat (split; [reflexivity|]).
    destruct (Z.le_gt_cases (Z.of_nat (length (f_status f)))
                            int_max_str_digits) as [Hl | Hl].
    + rewrite (parse_wire_format Hf Hl) in Hr. inversion Hr. reflexivity.
    + rewrite (parse_long_status Hf Hl) in Hr. discriminate.
  - vm_compute. reflexivity.
  - intros line r1 r2 H1 H2. congruence.
Qed.

Lemma C1_witness :
  wire_format line_post fields_post /\
  parse_log_line line_post =
  Ok (Some (f_address fields_post, f_timestamp fields_post,
            f_method fields_post, f_path fields_post,
            decimal (f_status fields_post))).
Proof.
  assert (H : wire_format line_post fields_post).
  { split; [exact well_formed_post | left; reflexivity]. }
  split; [exact H|].
  apply (proj1 C1_parse_wire_format line_post fields_post H).
  vm_compute. discriminate.
Defined.

(** C1 as stated fails: a line of the wire format whose status is 4301
    nines makes the parser raise. *)
Lemma C1_status_past_limit_raises :
  wire_format (render fields_past_limit []) fields_past_limit /\
  length (f_status fields_past_limit) = 4301 /\
  parse_log_line (render fields_past_limit []) = Raise ValueError.
Proof.
  assert (H : wire_format (render fields_past_limit []) fields_past_limit)
    by (apply wire_format_nines; [lia | left; reflexivity]).
  split; [exact H|]. split; [apply repeat_length|].
  apply (parse_long_status H). vm_compute. reflexivity.
Qed.

(** C3, as the code has it: a status that is a run of at most 4300 decimal
    digits parses to that (non-negative) number; the same line with a
    minus sign before the status digits gives no record; a run of more
    than 4300 digits makes [int] raise. *)
Theorem C3_status_digits_up_to_limit f tail :
  well_formed f -> line_end tail ->
  ((Z.of_nat (length (f_status f)) <= int_max_str_digits)%Z ->
   parse_log_line (render f tail) =
   Ok (Some (f_address f, f_timestamp f, f_method f, f_path f,
             decimal (f_status f)))) /\
  (0 <= decimal (f_status f))%Z /\
  parse_log_line (render (with_status f ("-"%char :: f_status f)) tail) =
  Ok None /\
  ((int_max_str_digits < Z.of_nat (length (f_status f)))%Z ->
   parse_log_line (render f tail) = Raise ValueError).
Proof.
  intros Hf Ht.
  assert (H : wire_format (render f tail) f).
  { split; [exact Hf|]. destruct Ht as [-> | ->]; auto. }
  split; [|split; [|split]].
  - intros Hl. apply (parse_wire_format H Hl).
  - apply decimal_nonneg. apply Hf.
  - apply parse_malformed. apply signed_status_malformed; assumption.
  - intros Hl. apply (parse_long_status H Hl).
Qed.

Lemma C3_witness :
  length (f_status fields_at_limit) = 4300 /\
  parse_log_line (render fields_at_limit []) =
  Ok (Some (s "10.0.0.1", s "01/Jan/2024:00:00:00 +0000", s "POST",
            s "/api/data", decimal (repeat "9"%char 4300))).
Proof.
  split; [apply repeat_length|].
  apply (proj1 (@C3_status_digits_up_to_limit fields_at_limit []
                  (well_formed_nines (n := 4300) ltac:(lia))
                  (or_introl eq_refl))).
  vm_compute. discriminate.
Defined.

(** C3 as stated fails: [-404] is the text of an integer, the other fields
    are in place, and the parser returns no record. *)
Lemma C3_negative_status_no_record :
  py_int (s "-404") = Ok (-404)%Z /\
  line_negative = render (with_status fields_post (s "-404")) [] /\
  parse_log_line line_negative = Ok None.
Proof. repeat split; vm_compute; reflexivity. Qed.

(** C5: a malformed line (the empty line, a bracket or a quote missing, a
    status that is not a number, too few fields or one too many), and any
    line that is not of the wire format, gives [None] and raises nothing;
    a record only comes from a line of the wire format. *)
Theorem C5_malformed_line_no_record line :
  (malformed line -> parse_log_line line = Ok None) /\
  (~ matches_wire_format line -> parse_log_line line = Ok None) /\
  (forall r, parse_log_line line = Ok (Some r) ->
             exists f, wire_format line f /\ r = record_of f).
Proof.
  split; [|split].
  - apply parse_malformed.
  - apply parse_other.
  - intros r. apply parse_record_inv.
Qed.

Lemma C5_witness :
  malformed line_negative /\ parse_log_line line_negative = Ok None.
Proof.
  assert (H : malformed line_negative).
  { apply (@signed_status_malformed fields_post []);
      [exact well_formed_post | left; reflexivity]. }
  split; [exact H | exact (proj1 (C5_malformed_line_no_record line_negative) H)].
Defined.

(** C9: the status of every record the parser returns is at least 0. *)
Theorem C9_status_non_negative line a t me p status :
  parse_log_line line = Ok (Some (a, t, me, p, status)) -> (0 <= status)%Z.
Proof.
  intros H. apply parse_record_inv in H. destruct H as (f & [Hf _] & E).
  unfold record_of in E. inversion E; subst.
  apply decimal_nonneg. apply Hf.
Qed.

Lemma C9_witness :
  parse_log_line line_post =
  Ok (Some (s "10.0.0.1", s "01/Jan/2024:00:00:00 +0000", s "POST",
            s "/api/data", 404%Z)) /\
  (0 <= 404)%Z.
Proof.
  assert (H : parse_log_line line_post =
              Ok (Some (s "10.0.0.1", s "01/Jan/2024:00:00:00 +0000",
                        s "POST", s "/api/data", 404%Z)))
    by (vm_compute; reflexivity).
  split; [exact H | exact (C9_status_non_negative line_post H)].
Defined.

(** C10, as the code has it: on a text that is not of the wire format the
    parser returns [None]; on a line of the wire format it returns the
    record when the status has at most 4300 digits and raises [ValueError]
    when it has more; it raises nothing else and on no other text.
    Whenever the pattern matches, group 5 is set and is a non-empty run of
    digits. *)
Theorem C10_parse_raises_only_past_limit line :
  (~ matches_wire_format line -> parse_log_line line = Ok None) /\
  (forall f, wire_format line f ->
             (Z.of_nat (length (f_status f)) <= int_max_str_digits)%Z ->
             parse_log_line line = Ok (Some (record_of f))) /\
  (forall f, wire_format line f ->
             (int_max_str_digits < Z.of_nat (length (f_status f)))%Z ->
             parse_log_line line = Raise ValueError) /\
  (forall e, parse_log_line line = Raise e ->
             e = ValueError /\
             exists f, wire_format line f /\
                       (int_max_str_digits < Z.of_nat (length (f_status f)))%Z) /\
  (forall m, re_match LOG_PATTERN line = Some m ->
             exists st, group m 5 = Some st /\ word is_digit st).
Proof.
  split; [|split; [|split; [|split]]].
  - apply parse_other.
  - intros f. apply parse_wire_format.
  - intros f. apply parse_long_status.
  - intros e He.
    destruct (parse_cases line)
      as [(f & _ & _ & E) | [(f & Hf & Hl & E) | (_ & E)]];
      rewrite E in He; try discriminate.
    inversion He. split; [reflexivity|]. exists f. auto.
  - intros m Hm. apply match_inv in Hm. destruct Hm as (f & [Hf _] & ->).
    exists (f_status f).
    destruct Hf as (_ & _ & _ & _ & _ & _ & _ & Hs & _).
    split; [reflexivity | exact Hs].
Qed.

Lemma C10_witness :
  parse_log_line (render fields_at_limit [nl]) =
  Ok (Some (record_of fields_at_limit)).
Proof.
  apply (proj1 (proj2 (C10_parse_raises_only_past_limit
                         (render fields_at_limit [nl])))).
  - apply wire_format_nines; [lia | right; reflexivity].
  - vm_compute. discriminate.
Defined.

(** C10 as stated fails: the line of the POST request with a status of
    4301 nines, as [readlines] gives it, makes the parser raise. *)
Lemma C10_conversion_fails_past_limit :
  parse_log_line (render fields_past_limit [nl]) = Raise ValueError.
Proof.
  apply (@parse_long_status _ fields_past_limit).
  - apply wire_format_nines; [lia | right; reflexivity].
  - vm_compute. reflexivity.
Qed.

(** ** The worker pool *)

Lemma chunksize_positive processes len :
  1 <= processes -> 1 <= len -> 1 <= Pool.chunksize processes len.
Proof.
  intros Hp Hl. unfold Pool.chunksize.
  destruct (len =? 0) eqn:E0; [apply Nat.eqb_eq in E0; lia|].
  destruct (len mod (processes * 4) =? 0) eqn:Em; [|lia].
  apply Nat.eqb_eq in Em.
  pose proof (Nat.div_mod_eq len (processes * 4)) as D.
  rewrite Em in D. nia.
Qed.

(** The tasks are the items, all of them, in order: the fuel is enough. *)
Lemma get_tasks_concat (A : Type) fuel :
  forall size (items : list A),
    1 <= size -> length items <= fuel ->
    concat (Pool.get_tasks fuel size items) = items.
Proof.
  induction fuel as [|fuel IH]; intros size items Hs Hl.
  - destruct items; [reflexivity | simpl in Hl; lia].
  - simpl. destruct (firstn size items) as [|x xs] eqn:E.
    + destruct items as [|a items]; [reflexivity|].
      destruct size; [lia | discriminate].
    + simpl concat. rewrite IH; [| exact Hs | rewrite length_skipn; lia].
      change ((x :: xs) ++ skipn size items = items).
      rewrite <- E. apply firstn_skipn.
Qed.

Lemma mapstar_app (A B : Type) (f : A -> result B) xs ys :
  Pool.mapstar f (xs ++ ys) =
  (a <- Pool.mapstar f xs ;; b <- Pool.mapstar f ys ;; Ok (a ++ b)).
Proof.
  induction xs as [|x xs IH]; simpl.
  - destruct (Pool.mapstar f ys); reflexivity.
  - destruct (f x) as [y|e]; simpl; [|reflexivity].
    rewrite IH. destruct (Pool.mapstar f xs) as [a|e]; simpl; [|reflexivity].
    destruct (Pool.mapstar f ys); reflexivity.
Qed.

Lemma collect_mapstar (A B : Type) (f : A -> result B) tasks :
  Pool.collect (List.map (Pool.mapstar f) tasks) =
  Pool.mapstar f (concat tasks).
Proof.
  induction tasks as [|t tasks IH]; simpl; [reflexivity|].
  rewrite mapstar_app, IH. reflexivity.
Qed.

(** With at least one worker, [Pool.map] is the sequential map, whatever
    the number of workers. *)
Lemma pool_map_sequential (A B : Type) processes (f : A -> result B) items :
  1 <= processes -> Pool.map processes f items = Pool.mapstar f items.
Proof.
  intros Hp. unfold Pool.map.
  destruct (processes =? 0) eqn:E; [apply Nat.eqb_eq in E; lia|].
  rewrite collect_mapstar. destruct items as [|a items]; [reflexivity|].
  rewrite get_tasks_concat; [reflexivity | | lia].
  apply chunksize_positive; [exact Hp | simpl; lia].
Qed.

Lemma sequential_parse_mapstar lines :
  sequential_parse lines =
  (parsed <- Pool.mapstar parse_log_line lines ;; Ok (filter_None parsed)).
Proof.
  induction lines as [|line lines IH]; simpl; [reflexivity|].
  destruct (parse_log_line line) as [r|e]; simpl; [|reflexivity].
  rewrite IH.
  destruct (Pool.mapstar parse_log_line lines) as [rs|e]; simpl;
    [|reflexivity].
  destruct r; reflexivity.
Qed.

Lemma parallel_is_sequential fs workers file_path lines :
  fs file_path = Some lines -> 1 <= workers ->
  process_log_data_parallel fs workers file_path = sequential_parse lines.
Proof.
  intros Hfs Hw. unfold process_log_data_parallel. rewrite Hfs.
  rewrite pool_map_sequential by exact Hw.
  symmetry. apply sequential_parse_mapstar.
Qed.

Lemma sequential_parse_count lines k :
  count_matching lines k -> Forall short_status lines ->
  exists out, sequential_parse lines = Ok out /\ length out = k.
Proof.
  induction 1 as [|line lines k [f Hf] _ IH |line lines k Hno _ IH];
    intros Hs; simpl.
  - exists []. auto.
  - inversion Hs as [|? ? Hl Hs']; subst.
    destruct (IH Hs') as (out & E & L).
    rewrite (parse_wire_format Hf (Hl f Hf)), E. simpl.
    exists (record_of f :: out). simpl. auto.
  - inversion Hs as [|? ? Hl Hs']; subst.
    destruct (IH Hs') as (out & E & L).
    rewrite (parse_other Hno), E. simpl. exists out. auto.
Qed.

(** When the sequential parse returns, it returns the lines the parser
    keeps, one for each line of the wire format. *)
Lemma sequential_parse_ok lines :
  forall out,
    sequential_parse lines = Ok out ->
    out = kept lines /\ forall k, count_matching lines k -> length out = k.
Proof.
  unfold kept.
  induction lines as [|line lines IH]; intros out E; simpl in E.
  - inversion E. split; [reflexivity|]. intros k Hk. inversion Hk. reflexivity.
  - destruct (parse_log_line line) as [r|e] eqn:Ep; [|discriminate].
    cbn [bind] in E.
    destruct (sequential_parse lines) as [rest|e] eqn:Er; [|discriminate].
    cbn [bind] in E. inversion E; subst out. clear E.
    destruct (IH rest eq_refl) as [Ek Hc]. cbn [List.map]. rewrite Ep.
    destruct r as [r|]; cbn [filter_None].
    + split; [rewrite Ek; reflexivity|].
      intros k Hk. inversion Hk as [|? ? k' Hm Hk' | ? ? ? Hno Hk']; subst.
      * simpl. rewrite (Hc _ Hk'). reflexivity.
      * rewrite (parse_other Hno) in Ep. discriminate.
    + split; [exact Ek|].
      intros k Hk. inversion Hk as [|? ? k' [f Hf] Hk' | ? ? ? Hno Hk']; subst.
      * exfalso.
        destruct (Z.le_gt_cases (Z.of_nat (length (f_status f)))
                                int_max_str_digits) as [Hl | Hl].
        -- rewrite (parse_wire_format Hf Hl) in Ep. discriminate.
        -- rewrite (parse_long_status Hf Hl) in Ep. discriminate.
      * apply Hc. exact Hk'.
Qed.

(** C2, as the code has it: of N lines, K in the wire format, each with a
    status of at most 4300 digits, the parallel coordinator returns
    exactly K records: the records that parsing the lines one after the
    other keeps, for any pool of at least one worker. *)
Theorem C2_parallel_parse_complete fs workers file_path lines k :
  fs file_path = Some lines -> 1 <= workers -> count_matching lines k ->
  Forall short_status lines ->
  exists out reference,
    process_log_data_parallel fs workers file_path = Ok out /\
    sequential_parse lines = Ok reference /\
    Permutation out reference /\
    length out = k /\
    process_log_data_parallel fs 1 file_path = Ok out.
Proof.
  intros Hfs Hw Hk Hs.
  destruct (sequential_parse_count Hk Hs) as (out & E & L).
  exists out, out.
  rewrite (parallel_is_sequential fs file_path Hfs Hw).
  rewrite (parallel_is_sequential fs file_path Hfs (le_n 1)).
  auto.
Qed.

Lemma sample_lines_count : count_matching sample_lines 2.
Proof.
  unfold sample_lines.
  apply count_hit.
  { exists fields_post. split; [exact well_formed_post | right; reflexivity]. }
  apply count_miss.
  { apply malformed_not_wire_format. apply too_few_fields.
    vm_compute. lia. }
  apply count_hit.
  { exists fields_huge. split; [exact well_formed_huge | right; reflexivity]. }
  apply count_nil.
Qed.

Lemma sample_lines_short : Forall short_status sample_lines.
Proof.
  unfold sample_lines. constructor; [|constructor; [|constructor]].
  - apply (@short_status_of _ fields_post).
    + split; [exact well_formed_post | right; reflexivity].
    + vm_compute. discriminate.
  - apply short_status_other. apply malformed_not_wire_format.
    apply too_few_fields. vm_compute. lia.
  - apply (@short_status_of _ fields_huge).
    + split; [exact well_formed_huge | right; reflexivity].
    + vm_compute. discriminate.
  - constructor.
Qed.

Lemma C2_witness :
  exists out reference,
    process_log_data_parallel sample_fs 4 (s "sample_access.log") = Ok out /\
    sequential_parse sample_lines = Ok reference /\
    Permutation out reference /\
    length out = 2 /\
    process_log_data_parallel sample_fs 1 (s "sample_access.log") = Ok out.
Proof.
  apply (@C2_parallel_parse_complete sample_fs 4 (s "sample_access.log")
           sample_lines 2).
  - reflexivity.
  - lia.
  - exact sample_lines_count.
  - exact sample_lines_short.
Defined.

(** C2 as stated fails: a file of one line, of the wire format, with a
    status of 4301 nines: K is 1 and the coordinator raises. *)
Lemma C2_status_past_limit_raises :
  count_matching [render fields_past_limit [nl]] 1 /\
  process_log_data_parallel
    (fun _ => Some [render fields_past_limit [nl]]) 4
    (s "sample_access.log") = Raise ValueError.
Proof.
  assert (H : wire_format (render fields_past_limit [nl]) fields_past_limit)
    by (apply wire_format_nines; [lia | right; reflexivity]).
  split.
  - apply count_hit; [exists fields_past_limit; exact H | apply count_nil].
  - rewrite (@parallel_is_sequential _ 4 _ [render fields_past_limit [nl]]);
      [|reflexivity | lia].
    cbn [sequential_parse].
    rewrite (@parse_long_status _ fields_past_limit H).
    + reflexivity.
    + vm_compute. reflexivity.
Qed.

(** ** Grouping and counting *)

Lemma bump_count_in key gs k :
  count_in (bump key gs) k =
  (count_in gs k + (if str_eqb key k then 1 else 0))%Z.
Proof.
  unfold count_in. induction gs as [|[k0 n] gs IH]; simpl.
  - destruct (str_eqb key k); reflexivity.
  - destruct (str_eqb k0 key) eqn:E0; simpl.
    + apply str_eqb_eq in E0. subst k0.
      destruct (str_eqb key k); simpl; [reflexivity | lia].
    + destruct (str_eqb k0 k) eqn:E1; simpl; [|exact IH].
      apply str_eqb_eq in E1. subst k0.
      destruct (str_eqb key k) eqn:E2; [|lia].
      apply str_eqb_eq in E2. subst key.
      rewrite str_eqb_refl in E0. discriminate.
Qed.

Lemma bump_keys key gs k :
  In k (List.map fst (bump key gs)) <-> k = key \/ In k (List.map fst gs).
Proof.
  induction gs as [|[k0 n] gs IH]; simpl.
  - intuition congruence.
  - destruct (str_eqb k0 key) eqn:E0; simpl.
    + apply str_eqb_eq in E0. subst k0. intuition congruence.
    + rewrite IH. tauto.
Qed.

Lemma bump_NoDup key gs :
  NoDup (List.map fst gs) -> NoDup (List.map fst (bump key gs)).
Proof.
  induction gs as [|[k0 n] gs IH]; simpl; intros H.
  - constructor; [intros [] | constructor].
  - destruct (str_eqb k0 key) eqn:E0; simpl; [exact H|].
    inversion H as [|? ? Hin Hnd]; subst. constructor; [|apply IH; exact Hnd].
    rewrite bump_keys. intros [-> | Hk]; [|contradiction].
    rewrite str_eqb_refl in E0. discriminate.
Qed.

Lemma bump_total key gs : total (bump key gs) = (total gs + 1)%Z.
Proof.
  induction gs as [|[k0 n] gs IH]; simpl; [reflexivity|].
  destruct (str_eqb k0 key); simpl; [|rewrite IH]; lia.
Qed.

Lemma bump_positive key gs :
  Forall (fun g => (1 <= snd g)%Z) gs ->
  Forall (fun g => (1 <= snd g)%Z) (bump key gs).
Proof.
  induction gs as [|[k0 n] gs IH]; simpl; intros H.
  - constructor; [simpl; lia | constructor].
  - inversion H as [|? ? Hn Hgs]; subst. simpl in Hn.
    destruct (str_eqb k0 key); constructor; simpl; auto; lia.
Qed.

Lemma count_key_cons k x keys :
  count_key k (x :: keys) =
  (if str_eqb x k then 1 else 0) + count_key k keys.
Proof. unfold count_key. simpl. destruct (str_eqb x k); reflexivity. Qed.

Lemma fold_bump keys :
  forall acc,
    NoDup (List.map fst acc) -> Forall (fun g => (1 <= snd g)%Z) acc ->
    let gs := fold_left (fun gs key => bump key gs) keys acc in
    NoDup (List.map fst gs) /\
    Forall (fun g => (1 <= snd g)%Z) gs /\
    (forall k, count_in gs k = (count_in acc k + Z.of_nat (count_key k keys))%Z) /\
    (forall k, In k (List.map fst gs) -> In k (List.map fst acc) \/ In k keys) /\
    total gs = (total acc + Z.of_nat (length keys))%Z.
Proof.
  induction keys as [|key keys IH]; intros acc Hnd Hpos; simpl.
  - repeat split; auto; intros; unfold count_key; simpl; lia.
  - destruct (IH (bump key acc) (@bump_NoDup key acc Hnd)
                  (@bump_positive key acc Hpos))
      as (N & P & C & K & T). repeat split; auto.
    + intros k. rewrite C, bump_count_in, count_key_cons.
      destruct (str_eqb key k); lia.
    + intros k Hk. destruct (K k Hk) as [H | H]; [|auto].
      apply bump_keys in H. destruct H as [-> | H]; auto.
    + rewrite T, bump_total. lia.
Qed.

Lemma in_count_in gs k n :
  NoDup (List.map fst gs) -> In (k, n) gs -> count_in gs k = n.
Proof.
  unfold count_in. induction gs as [|[k0 n0] gs IH]; simpl; intros Hnd Hin.
  - contradiction.
  - inversion Hnd as [|? ? Hk0 Hgs]; subst. destruct Hin as [E | Hin].
    + inversion E; subst. rewrite str_eqb_refl. reflexivity.
    + destruct (str_eqb k0 k) eqn:E0; [|apply IH; assumption].
      apply str_eqb_eq in E0. subst k0. exfalso. apply Hk0.
      apply (in_map fst) in Hin. exact Hin.
Qed.

Lemma group_count_spec keys :
  let gs := group_count keys in
  NoDup (List.map fst gs) /\
  Forall (fun g => (1 <= snd g)%Z) gs /\
  (forall k n, In (k, n) gs -> n = Z.of_nat (count_key k keys)) /\
  (forall k, In k (List.map fst gs) -> In k keys) /\
  total gs = Z.of_nat (length keys).
Proof.
  destruct (@fold_bump keys [] (NoDup_nil _) (Forall_nil _))
    as (N & P & C & K & T).
  unfold group_count. repeat split; auto.
  - intros k n Hin. rewrite <- (@in_count_in _ k n N Hin), C. reflexivity.
  - intros k Hk. destruct (K k Hk) as [[] | H]; exact H.
Qed.

(** ** Ordering by count *)

Lemma place_perm a gs : Permutation (place a gs) (a :: gs).
Proof.
  induction gs as [|b gs IH]; simpl; [reflexivity|].
  destruct (before a b); [reflexivity|].
  rewrite IH. apply perm_swap.
Qed.

Lemma order_by_count_perm gs : Permutation (order_by_count gs) gs.
Proof.
  induction gs as [|a gs IH]; simpl; [reflexivity|].
  rewrite place_perm, IH. reflexivity.
Qed.

Lemma before_true a b : before a b = true -> ge_count a b.
Proof.
  unfold before, ge_count. intros H. apply orb_true_iff in H.
  destruct H as [H | H].
  - apply Z.ltb_lt in H. lia.
  - apply andb_true_iff in H. destruct H as [H _].
    apply Z.eqb_eq in H. lia.
Qed.

Lemma before_false a b : before a b = false -> ge_count b a.
Proof.
  unfold before, ge_count. intros H. apply orb_false_iff in H.
  destruct H as [H _]. apply Z.ltb_ge in H. exact H.
Qed.

Lemma place_sorted a gs :
  StronglySorted ge_count gs -> StronglySorted ge_count (place a gs).
Proof.
  induction gs as [|b gs IH]; simpl; intros H.
  - constructor; constructor.
  - inversion H as [|? ? Hs Hall]; subst.
    destruct (before a b) eqn:E.
    + constructor; [exact H|]. apply before_true in E.
      constructor; [exact E|].
      eapply Forall_impl; [|exact Hall].
      unfold ge_count in *. intros x Hx. lia.
    + constructor; [apply IH; exact Hs|]. apply before_false in E.
      eapply Permutation_Forall; [symmetry; apply place_perm|].
      constructor; assumption.
Qed.

Lemma order_by_count_sorted gs : StronglySorted ge_count (order_by_count gs).
Proof.
  induction gs as [|a gs IH]; simpl; [constructor|].
  apply place_sorted. exact IH.
Qed.

Lemma firstn_in (A : Type) n (l : list A) x : In x (firstn n l) -> In x l.
Proof.
  intros H. rewrite <- (firstn_skipn n l). apply in_or_app. left. exact H.
Qed.

Lemma firstn_forall (A : Type) (P : A -> Prop) n (l : list A) :
  Forall P l -> Forall P (firstn n l).
Proof.
  intros H. apply Forall_forall. intros x Hx.
  rewrite Forall_forall in H. apply H. apply (firstn_in _ _ _ Hx).
Qed.

Lemma firstn_sorted (A : Type) (R : A -> A -> Prop) n :
  forall l, StronglySorted R l -> StronglySorted R (firstn n l).
Proof.
  induction n as [|n IH]; intros l H; simpl; [constructor|].
  destruct H as [|a l Hs Hall]; constructor.
  - apply IH. exact Hs.
  - apply firstn_forall. exact Hall.
Qed.

Lemma total_perm gs gs' : Permutation gs gs' -> total gs = total gs'.
Proof.
  induction 1; simpl; lia.
Qed.

Lemma total_firstn n :
  forall gs, Forall (fun g => (1 <= snd g)%Z) gs ->
             (total (firstn n gs) <= total gs)%Z.
Proof.
  induction n as [|n IH]; intros gs H; simpl.
  - induction H; simpl; lia.
  - destruct H as [|g gs Hg Hgs]; simpl; [lia|].
    specialize (IH gs Hgs). lia.
Qed.

(** ** The store *)

Lemma has_table_add name o st :
  has_table name (add_object o st) = has_table name st || is_table name o.
Proof.
  unfold has_table, add_object; simpl. rewrite existsb_app. simpl.
  rewrite orb_false_r. reflexivity.
Qed.

Lemma has_index_add name o st :
  has_index name (add_object o st) = has_index name st || is_index name o.
Proof.
  unfold has_index, add_object; simpl. rewrite existsb_app. simpl.
  rewrite orb_false_r. reflexivity.
Qed.

Lemma unnamed name st :
  has_table name st = false -> has_index name st = false ->
  ~ In name (names st).
Proof.
  unfold has_table, has_index, names.
  induction (schema st) as [|o os IH]; simpl; intros Ht Hi; [tauto|].
  apply orb_false_iff in Ht. apply orb_false_iff in Hi.
  destruct Ht as [Ht Hts], Hi as [Hi His].
  intros [E | Hin]; [|exact (IH Hts His Hin)].
  destruct o as [n | n tb col]; simpl in *; subst n.
  - rewrite str_eqb_refl in Ht. discriminate.
  - rewrite str_eqb_refl in Hi. discriminate.
Qed.

Lemma names_add o st : names (add_object o st) = names st ++ [name_of o].
Proof. unfold names, add_object; simpl. apply map_app. Qed.

Lemma NoDup_snoc (A : Type) (l : list A) x :
  NoDup l -> ~ In x l -> NoDup (l ++ [x]).
Proof.
  intros Hl Hx. apply NoDup_rev in Hl.
  rewrite <- (rev_involutive (l ++ [x])). apply NoDup_rev.
  rewrite rev_app_distr. simpl. constructor; [|exact Hl].
  rewrite <- in_rev. exact Hx.
Qed.

Lemma create_table_spec name st st1 :
  create_table true name st = Ok st1 ->
  has_table name st1 = true /\
  (forall other, has_table other st = true -> has_table other st1 = true) /\
  (forall other, has_table other st1 = true ->
                 has_table other st = true \/ other = name) /\
  (forall other, has_index other st1 = has_index other st) /\
  rows st1 = rows st /\ seq st1 = seq st /\
  (NoDup (names st) -> NoDup (names st1)).
Proof.
  unfold create_table. destruct (has_table name st) eqn:Ht.
  - intros E. inversion E; subst. repeat split; auto.
  - destruct (has_index name st) eqn:Hi; [discriminate|].
    intros E. inversion E; subst. repeat split; auto.
    + rewrite has_table_add. simpl. rewrite str_eqb_refl. apply orb_true_r.
    + intros other H. rewrite has_table_add, H. reflexivity.
    + intros other H. rewrite has_table_add in H.
      apply orb_true_iff in H. destruct H as [H | H]; [auto|].
      simpl in H. apply str_eqb_eq in H. auto.
    + intros other. rewrite has_index_add. simpl. apply orb_false_r.
    + intros Hnd. rewrite names_add. apply NoDup_snoc; [exact Hnd|].
      apply unnamed; assumption.
Qed.

Lemma create_index_spec name table column st st1 :
  create_index true name table column st = Ok st1 ->
  has_table table st = true /\ has_table name st = false /\
  has_index name st1 = true /\
  (forall other, has_table other st1 = has_table other st) /\
  rows st1 = rows st /\ seq st1 = seq st /\
  (NoDup (names st) -> NoDup (names st1)).
Proof.
  unfold create_index. destruct (has_table table st) eqn:Ht; [|discriminate].
  simpl. destruct (has_table name st) eqn:Hn; [discriminate|].
  destruct (has_index name st) eqn:Hi.
  - intros E. inversion E; subst. repeat split; auto.
  - intros E. inversion E; subst. repeat split; auto.
    + rewrite has_index_add. simpl. rewrite str_eqb_refl. apply orb_true_r.
    + intros other. rewrite has_table_add. simpl. apply orb_false_r.
    + intros Hnd. rewrite names_add. apply NoDup_snoc; [exact Hnd|].
      apply unnamed; assumption.
Qed.

Lemma setup_database_spec st st1 :
  setup_database st = Ok st1 ->
  has_table Log_Entries st1 = true /\ has_table idx_ip st1 = false /\
  has_index idx_ip st1 = true /\
  rows st1 = rows st /\ seq st1 = seq st /\
  (NoDup (names st) -> NoDup (names st1)).
Proof.
  unfold setup_database.
  destruct (create_table true Log_Entries st) as [sa|e] eqn:Ea;
    [|discriminate].
  cbn [bind].
  destruct (create_index true idx_ip Log_Entries (s "IP_Address") sa)
    as [sb|e] eqn:Eb; [|discriminate].
  cbn [bind]. intros E. inversion E; subst sb.
  destruct (create_table_spec _ _ Ea) as (Ta & _ & _ & _ & Ra & Sa & Na).
  destruct (create_index_spec _ _ _ _ Eb) as (_ & Tn & Ib & Tb & Rb & Sb & Nb).
  rewrite !Tb. repeat split; auto; congruence.
Qed.

Lemma setup_database_again st :
  has_table Log_Entries st = true -> has_table idx_ip st = false ->
  has_index idx_ip st = true -> setup_database st = Ok st.
Proof.
  intros Ht Hn Hi. unfold setup_database, create_table. rewrite Ht. simpl.
  unfold create_index. rewrite Ht, Hn, Hi. reflexivity.
Qed.

Lemma top_ips_rows st :
  has_table Log_Entries st = true ->
  top_ips st =
  Ok (firstn 10
        (order_by_count (group_count (List.map IP_Address (rows st))))).
Proof. intros H. unfold top_ips, select_top. rewrite H. reflexivity. Qed.

Lemma top_ips_raises st e :
  top_ips st = Raise e -> exists msg, e = OperationalError msg.
Proof.
  unfold top_ips, select_top. destruct (has_table Log_Entries st).
  - discriminate.
  - intros H. inversion H. eauto.
Qed.

(** *** Loading *)

Lemma rows_of_length data : forall last, length (rows_of last data) = length data.
Proof.
  induction data as [|r data IH]; intros last; simpl; [reflexivity|].
  rewrite IH. reflexivity.
Qed.

Lemma rows_of_addresses data :
  forall last, List.map IP_Address (rows_of last data) = List.map address_of data.
Proof.
  induction data as [|r data IH]; intros last; simpl; [reflexivity|].
  rewrite IH. destruct r as [[[[ip ts] me] url] status]. reflexivity.
Qed.

Lemma rows_of_ids data :
  forall last,
    StronglySorted Z.lt (List.map LogID (rows_of last data)) /\
    Forall (fun id => (last < id <= last + Z.of_nat (length data))%Z)
           (List.map LogID (rows_of last data)).
Proof.
  induction data as [|r data IH]; intros last; cbn [rows_of List.map].
  - split; constructor.
  - destruct (IH (last + 1)%Z) as [S F].
    assert (E : LogID (row_of (last + 1) r) = (last + 1)%Z)
      by (destruct r as [[[[ip ts] me] url] status]; reflexivity).
    rewrite E. split.
    + constructor; [exact S|]. eapply Forall_impl; [|exact F].
      cbv beta. intros id H. lia.
    + constructor; [cbn [length]; lia|]. eapply Forall_impl; [|exact F].
      cbv beta. intros id H. cbn [length]. lia.
Qed.

Lemma sorted_app (A : Type) (R : A -> A -> Prop) l1 l2 :
  StronglySorted R l1 -> StronglySorted R l2 ->
  (forall x y, In x l1 -> In y l2 -> R x y) ->
  StronglySorted R (l1 ++ l2).
Proof.
  induction l1 as [|a l1 IH]; intros S1 S2 H; simpl; [exact S2|].
  inversion S1 as [|? ? S1' F1]; subst. constructor.
  - apply IH; auto. intros x y Hx Hy. apply H; [right; exact Hx | exact Hy].
  - apply Forall_app. split; [exact F1|].
    apply Forall_forall. intros y Hy. apply H; [left; reflexivity | exact Hy].
Qed.

Lemma sorted_app_inv (A : Type) (R : A -> A -> Prop) l1 l2 :
  StronglySorted R (l1 ++ l2) ->
  forall x y, In x l1 -> In y l2 -> R x y.
Proof.
  induction l1 as [|a l1 IH]; intros S x y Hx Hy; [contradiction|].
  simpl in S. inversion S as [|? ? S' F]; subst.
  destruct Hx as [-> | Hx]; [|apply IH; assumption].
  rewrite Forall_forall in F. apply F. apply in_or_app. right. exact Hy.
Qed.

Lemma insert_ok_inv r st st' :
  insert r st = Ok st' ->
  storable (status_of r) = true /\ (seq st < int64_max)%Z /\
  st' = {| schema := schema st; rows := rows st ++ [row_of (seq st + 1) r];
           seq := (seq st + 1)%Z |}.
Proof.
  destruct r as [[[[ip ts] me] url] status]. unfold insert.
  cbn [status_of row_of].
  destruct (storable status); cbn [negb]; [|discriminate].
  destruct (Z.leb_spec int64_max (seq st)); [discriminate|].
  intros E. inversion E. auto.
Qed.

Lemma insert_ok r st :
  storable (status_of r) = true -> (seq st < int64_max)%Z ->
  insert r st =
  Ok {| schema := schema st; rows := rows st ++ [row_of (seq st + 1) r];
        seq := (seq st + 1)%Z |}.
Proof.
  destruct r as [[[[ip ts] me] url] status]. unfold insert.
  cbn [status_of row_of]. intros -> Hs. cbn [negb].
  destruct (Z.leb_spec int64_max (seq st)); [lia | reflexivity].
Qed.

Lemma insert_each_ok data :
  forall st,
    loadable (seq st) data ->
    insert_each data st =
    Ok {| schema := schema st; rows := rows st ++ rows_of (seq st) data;
          seq := (seq st + Z.of_nat (length data))%Z |}.
Proof.
  induction data as [|r data IH]; intros st [Hs Hl].
  - cbn [insert_each rows_of length]. rewrite app_nil_r, Z.add_0_r.
    destruct st; reflexivity.
  - inversion Hs as [|? ? Hr Hs']; subst.
    assert (Hl' : (seq st + Z.of_nat (S (length data)) <= int64_max)%Z)
      by (apply Hl; discriminate).
    cbn [insert_each]. rewrite insert_ok by (assumption || lia).
    cbn [bind]. rewrite IH.
    + cbn [schema rows seq rows_of]. rewrite <- app_assoc.
      f_equal. f_equal. cbn [length]. lia.
    + split; [exact Hs'|]. cbn [seq]. intros _. lia.
Qed.

Lemma insert_each_ok_inv data :
  forall st st',
    insert_each data st = Ok st' ->
    loadable (seq st) data /\
    st' = {| schema := schema st; rows := rows st ++ rows_of (seq st) data;
             seq := (seq st + Z.of_nat (length data))%Z |}.
Proof.
  induction data as [|r data IH]; intros st st' E.
  - cbn [insert_each] in E. inversion E; subst st'. split.
    + split; [constructor | congruence].
    + cbn [rows_of length]. rewrite app_nil_r, Z.add_0_r.
      destruct st; reflexivity.
  - cbn [insert_each] in E.
    destruct (insert r st) as [st1|e] eqn:E1; [|discriminate].
    cbn [bind] in E.
    destruct (insert_ok_inv _ _ E1) as (Hr & Hs & ->).
    destruct (IH _ _ E) as ([Hs' Hl] & ->). cbn [seq] in *.
    split.
    + split; [constructor; assumption|]. intros _. cbn [length].
      destruct data as [|r' data'].
      * cbn [length]. lia.
      * assert ((seq st + 1 + Z.of_nat (length (r' :: data')) <= int64_max)%Z)
          by (apply Hl; discriminate).
        lia.
    + cbn [schema rows seq rows_of]. rewrite <- app_assoc.
      f_equal. cbn [length]. lia.
Qed.

Lemma bulk_load_data_ok st parsed_data :
  has_table Log_Entries st = true -> loadable (seq st) parsed_data ->
  bulk_load_data st parsed_data =
  Ok {| schema := schema st;
        rows := rows st ++ rows_of (seq st) parsed_data;
        seq := (seq st + Z.of_nat (length parsed_data))%Z |}.
Proof.
  intros H Hl. unfold bulk_load_data, executemany_insert. rewrite H.
  apply insert_each_ok. exact Hl.
Qed.

Lemma bulk_load_data_ok_inv st parsed_data st' :
  bulk_load_data st parsed_data = Ok st' ->
  has_table Log_Entries st = true /\ loadable (seq st) parsed_data /\
  st' = {| schema := schema st;
           rows := rows st ++ rows_of (seq st) parsed_data;
           seq := (seq st + Z.of_nat (length parsed_data))%Z |}.
Proof.
  unfold bulk_load_data, executemany_insert.
  destruct (has_table Log_Entries st); [|discriminate].
  intros E. destruct (insert_each_ok_inv _ _ E) as [Hl ->]. auto.
Qed.


(** *** The ranking *)

Lemma count_key_in k keys : In k keys -> 1 <= count_key k keys.
Proof.
  induction keys as [|x keys IH]; intros H; [contradiction|].
  rewrite count_key_cons. destruct H as [-> | H].
  - rewrite str_eqb_refl. lia.
  - specialize (IH H). lia.
Qed.

Lemma count_in_group gs k :
  count_in gs k <> 0%Z -> In (k, count_in gs k) gs.
Proof.
  unfold count_in. destruct (find _ gs) as [[k0 n]|] eqn:E; [|congruence].
  intros _. apply find_some in E. destruct E as [Hin Hk]. simpl in Hk.
  apply str_eqb_eq in Hk. subst k0. exact Hin.
Qed.

Lemma group_count_complete keys k :
  In k keys -> In (k, Z.of_nat (count_key k keys)) (group_count keys).
Proof.
  intros H. pose proof (count_key_in _ _ H) as P.
  destruct (@fold_bump keys [] (NoDup_nil _) (Forall_nil _))
    as (_ & _ & C & _ & _).
  specialize (C k). change (count_in [] k) with 0%Z in C.
  unfold group_count. rewrite Z.add_0_l in C. rewrite <- C.
  apply count_in_group. lia.
Qed.

(** An address that is left out has no more rows than any that is in. *)
Lemma top_ips_complete st top ip :
  top_ips st = Ok top -> In ip (List.map IP_Address (rows st)) ->
  In ip (List.map fst top) \/
  (length top = 10 /\
   forall k n, In (k, n) top ->
               (Z.of_nat (count_key ip (List.map IP_Address (rows st))) <= n)%Z).
Proof.
  intros E Hip.
  set (keys := List.map IP_Address (rows st)) in *.
  set (ranked := order_by_count (group_count keys)).
  assert (Et : top = firstn 10 ranked).
  { unfold top_ips, select_top in E.
    destruct (has_table Log_Entries st); [|discriminate].
    fold keys in E. fold ranked in E. congruence. }
  subst top. clear E.
  assert (Hin : In (ip, Z.of_nat (count_key ip keys)) ranked).
  { apply (Permutation_in _ (Permutation_sym (order_by_count_perm _))).
    apply group_count_complete. exact Hip. }
  pose proof (order_by_count_sorted (group_count keys)) as S.
  fold ranked in S. rewrite <- (firstn_skipn 10 ranked) in Hin, S.
  apply in_app_or in Hin. destruct Hin as [Hin | Hin].
  - left. apply (in_map fst) in Hin. exact Hin.
  - right. split.
    + rewrite length_firstn. apply Nat.min_l.
      assert (L : length (skipn 10 ranked) <> 0)
        by (destruct (skipn 10 ranked); [contradiction | discriminate]).
      rewrite length_skipn in L. lia.
    + intros k n Hk.
      apply (sorted_app_inv _ _ S _ _ Hk Hin).
Qed.

Lemma group_count_sorted_spec keys :
  let top := firstn 10 (order_by_count (group_count keys)) in
  length top <= 10 /\
  StronglySorted ge_count top /\
  NoDup (List.map fst top) /\
  (forall k n, In (k, n) top -> n = Z.of_nat (count_key k keys)) /\
  (total top <= Z.of_nat (length keys))%Z /\
  (forall ks, length ks <= 10 -> (forall k, In k keys -> In k ks) ->
              total top = Z.of_nat (length keys)).
Proof.
  destruct (group_count_spec keys) as (N & P & C & K & T).
  pose proof (order_by_count_perm (group_count keys)) as Hp.
  cbv zeta. split; [apply firstn_le_length|].
  split; [apply firstn_sorted; apply order_by_count_sorted|].
  assert (N' : NoDup (List.map fst (order_by_count (group_count keys)))).
  { eapply Permutation_NoDup; [|exact N].
    apply Permutation_map. symmetry. exact Hp. }
  split.
  { rewrite <- firstn_map.
    rewrite <- (firstn_skipn 10 (List.map fst _)) in N'.
    apply NoDup_app_remove_r in N'. exact N'. }
  split.
  { intros k n Hin. apply C. apply (Permutation_in _ Hp).
    apply (firstn_in _ _ _ Hin). }
  assert (P' : Forall (fun g => (1 <= snd g)%Z)
                      (order_by_count (group_count keys))).
  { eapply Permutation_Forall; [symmetry; exact Hp | exact P]. }
  split.
  { rewrite <- T, <- (total_perm Hp). apply total_firstn. exact P'. }
  intros ks Hks Hin.
  rewrite firstn_all2; [rewrite (total_perm Hp); exact T|].
  rewrite (Permutation_length Hp), <- (length_map fst).
  transitivity (length ks); [|exact Hks].
  apply NoDup_incl_length; [exact N|].
  intros k Hk. apply Hin. apply K. exact Hk.
Qed.

(** ** The store: the properties of the specification *)





(** C6: on every store that has the table, the query returns at most ten
    pairs of an address and a count, no address twice, in descending order
    of count, each count the number of rows with that address; every
    address of the table is among them, unless ten are returned that all
    have at least as many rows; on an empty table it returns the empty
    list. *)
Theorem C6_top_ips_ranked st :
  has_table Log_Entries st = true ->
  exists top,
    top_ips st = Ok top /\
    length top <= 10 /\
    StronglySorted ge_count top /\
    NoDup (List.map fst top) /\
    (forall ip n, In (ip, n) top ->
                  n = Z.of_nat (count_key ip (List.map IP_Address (rows st)))) /\
    (forall ip, In ip (List.map IP_Address (rows st)) ->
                In ip (List.map fst top) \/
                (length top = 10 /\
                 forall k n, In (k, n) top ->
                   (Z.of_nat (count_key ip (List.map IP_Address (rows st)))
                    <= n)%Z)) /\
    (rows st = [] -> top = []).
Proof.
  intros Ht. eexists. split; [apply top_ips_rows; exact Ht|].
  destruct (group_count_sorted_spec (List.map IP_Address (rows st)))
    as (Hl & Hs & Hn & Hc & _ & _).
  split; [exact Hl|]. split; [exact Hs|]. split; [exact Hn|].
  split; [exact Hc|]. split.
  - intros ip Hip. apply (@top_ips_complete st); [|exact Hip].
    apply top_ips_rows. exact Ht.
  - intros ->. reflexivity.
Qed.

Lemma C6_witness :
  exists top,
    top_ips {| schema := [Table Log_Entries];
               rows := rows_of 0 scenario_requests; seq := 16 |} = Ok top /\
    top = [(s "C", 8%Z); (s "A", 5%Z); (s "B", 3%Z)] /\
    StronglySorted ge_count top.
Proof.
  destruct (@C6_top_ips_ranked
              {| schema := [Table Log_Entries];
                 rows := rows_of 0 scenario_requests; seq := 16 |}
              eq_refl)
    as (top & E & _ & S & _).
  exists top. split; [exact E|]. split; [|exact S].
  assert (E' : top_ips {| schema := [Table Log_Entries];
                          rows := rows_of 0 scenario_requests; seq := 16 |}
               = Ok [(s "C", 8%Z); (s "A", 5%Z); (s "B", 3%Z)])
    by (vm_compute; reflexivity).
  congruence.
Defined.

(** The scenario of the specification, with a limit of two. *)
Example scenario_top_two :
  (st1 <- setup_database empty_store ;;
   st2 <- bulk_load_data st1 scenario_requests ;;
   select_top 2 Log_Entries st2) = Ok [(s "C", 8%Z); (s "A", 5%Z)].
Proof. vm_compute. reflexivity. Qed.

(** C7: when [setup_database] has run, running it again raises nothing and
    leaves the store as it is: no second table, no second index; names
    that were unique stay unique.  On a new file the first run creates
    the table and the index. *)
Theorem C7_setup_database_idempotent st st1 :
  setup_database st = Ok st1 ->
  setup_database st1 = Ok st1 /\
  has_table Log_Entries st1 = true /\ has_index idx_ip st1 = true /\
  (NoDup (names st) -> NoDup (names st1)).
Proof.
  intros E. destruct (setup_database_spec _ E) as (Ht & Hn & Hi & _ & _ & Hnd).
  rewrite (setup_database_again _ Ht Hn Hi). auto.
Qed.

Lemma C7_witness :
  exists st1,
    setup_database empty_store = Ok st1 /\
    setup_database st1 = Ok st1 /\
    schema st1 = [Table Log_Entries; Index idx_ip Log_Entries (s "IP_Address")].
Proof.
  eexists. split; [reflexivity|]. split; [|reflexivity].
  exact (proj1 (@C7_setup_database_idempotent empty_store _ eq_refl)).
Defined.

(** C8, as the code has it: [run_optimized_analysis] never raises to its
    caller and returns the same (nothing) whether the query ran or failed;
    a failed query shows only on the console, as an error line in place
    of the timing line, the header and the entries. *)
Theorem C8_query_failure_printed_not_raised st :
  snd (run_optimized_analysis st) = Ok tt /\
  (forall msg, top_ips st = Raise (OperationalError msg) ->
               fst (run_optimized_analysis st) = [Banner; QueryFailed msg]) /\
  (forall top, top_ips st = Ok top ->
               fst (run_optimized_analysis st) =
               [Banner; AnalysisTime; TopHeader]
                 ++ List.map (fun g => Entry (fst g) (snd g)) top) /\
  (has_table Log_Entries st = false -> exists msg,
      top_ips st = Raise (OperationalError msg)).
Proof.
  unfold run_optimized_analysis. split; [|split; [|split]].
  - destruct (top_ips st) as [top|e] eqn:E; [reflexivity|].
    destruct (top_ips_raises _ E) as [msg ->]. reflexivity.
  - intros msg ->. reflexivity.
  - intros top ->. reflexivity.
  - intros H. unfold top_ips, select_top. rewrite H. eauto.
Qed.

Lemma C8_witness :
  fst (run_optimized_analysis empty_store) =
  [Banner; QueryFailed (s "no such table")].
Proof.
  apply (proj1 (proj2 (C8_query_failure_printed_not_raised empty_store))).
  reflexivity.
Defined.

(** C8 as stated fails: with no table the query raises, yet the caller of
    [run_optimized_analysis] gets what it gets on an empty table. *)
Lemma C8_failure_not_surfaced :
  top_ips empty_store = Raise (OperationalError (s "no such table")) /\
  (exists st, setup_database empty_store = Ok st /\ top_ips st = Ok [] /\
              snd (run_optimized_analysis empty_store) =
              snd (run_optimized_analysis st)) /\
  snd (run_optimized_analysis empty_store) = Ok tt.
Proof.
  split; [reflexivity|]. split; [|reflexivity].
  eexists. split; [reflexivity|]. split; reflexivity.
Qed.

(** * Further properties of the code *)

(** ** The pattern and the parser *)

(** X1: a line of the wire format has one reading: its nine fields are
    determined by the text. *)
Theorem wire_format_unique line f g :
  wire_format line f -> wire_format line g -> f = g.
Proof. apply wire_format_one_reading. Qed.

Lemma wire_format_unique_witness :
  wire_format line_post fields_post /\ fields_post = fields_post.
Proof.
  assert (H : wire_format line_post fields_post).
  { split; [exact well_formed_post | left; reflexivity]. }
  split; [exact H | exact (wire_format_unique H H)].
Defined.

(** X2: in every record the parser returns, the address, the method and
    the path are non-empty and hold no white space, and the timestamp is
    non-empty and holds no closing bracket. *)
Theorem record_fields_shape line a t me p status :
  parse_log_line line = Ok (Some (a, t, me, p, status)) ->
  (a <> [] /\ Forall (fun c => is_space c = false) a) /\
  (t <> [] /\ ~ In "]"%char t) /\
  (me <> [] /\ Forall (fun c => is_space c = false) me) /\
  (p <> [] /\ Forall (fun c => is_space c = false) p).
Proof.
  intros H. apply parse_record_inv in H. destruct H as (f & [Hf _] & E).
  unfold record_of in E. inversion E; subst.
  destruct Hf as ([Ha1 Ha2] & _ & _ & [Ht1 Ht2] & [Hm1 Hm2] & [Hp1 Hp2] & _).
  assert (N : forall w, Forall (fun c => in_class NotSpace c = true) w ->
                        Forall (fun c => is_space c = false) w).
  { intros w Hw. eapply Forall_impl; [|exact Hw]. simpl. intros c Hc.
    apply negb_true_iff. exact Hc. }
  repeat split; auto.
  intros Hin. rewrite Forall_forall in Ht2. specialize (Ht2 _ Hin).
  discriminate.
Qed.

Lemma record_fields_shape_witness :
  s "10.0.0.1" <> [] /\ ~ In "]"%char (s "01/Jan/2024:00:00:00 +0000").
Proof.
  destruct (@record_fields_shape line_post (s "10.0.0.1")
              (s "01/Jan/2024:00:00:00 +0000") (s "POST") (s "/api/data")
              404%Z eq_refl) as ([H1 _] & [_ H2] & _).
  split; assumption.
Defined.

(** X3: after the last field only the end of the text or one line feed
    may follow: a line of the wire format followed by white space and
    anything else (a space, a carriage return and a line feed, two line
    feeds) gives no record. *)
Theorem trailing_text_no_record f c tail :
  well_formed f -> is_space c = true -> c :: tail <> [nl] ->
  parse_log_line (render f (c :: tail)) = Ok None.
Proof.
  intros Hf Hc Hne. apply parse_other. intros Hm.
  apply wire_format_render in Hm. destruct Hm as (g & u & Hg & Hu & E).
  apply render_unique in E;
    [ | apply well_formed_tokenized; exact Hf
      | apply well_formed_tokenized; exact Hg
      | simpl; rewrite Hc; reflexivity
      | apply line_end_boundary; exact Hu ].
  destruct E as [_ E]. destruct Hu as [-> | ->]; congruence.
Qed.

Lemma trailing_text_no_record_witness :
  parse_log_line (render fields_post [ascii_of_nat 13; nl]) = Ok None.
Proof.
  apply (@trailing_text_no_record fields_post (ascii_of_nat 13) [nl]).
  - exact well_formed_post.
  - reflexivity.
  - discriminate.
Defined.

(** X4: the match is anchored at the start of the text: a line that
    begins with white space gives no record, whatever follows. *)
Theorem leading_space_no_record c line :
  is_space c = true -> parse_log_line (c :: line) = Ok None.
Proof.
  intros Hc. apply parse_other. intros Hm.
  apply wire_format_render in Hm. destruct Hm as (g & u & Hg & _ & E).
  destruct Hg as ([Hne Ha] & _). unfold render in E.
  destruct (f_address g) as [|c' a']; [congruence|].
  simpl in E. injection E as Ec _. subst c'.
  inversion Ha as [|? ? Hfirst _]; subst.
  simpl in Hfirst. rewrite Hc in Hfirst. discriminate.
Qed.

Lemma leading_space_no_record_witness :
  parse_log_line (sp :: line_post) = Ok None.
Proof.
  apply (@leading_space_no_record sp line_post). reflexivity.
Defined.

(** ** [str] and [int] *)

Lemma digit_char_spec d :
  (0 <= d <= 9)%Z ->
  is_digit (digit_char d) = true /\
  (Z.of_nat (code (digit_char d)) - 48)%Z = d.
Proof.
  intros H.
  assert (E : (d = 0 \/ d = 1 \/ d = 2 \/ d = 3 \/ d = 4 \/ d = 5 \/ d = 6 \/
               d = 7 \/ d = 8 \/ d = 9)%Z) by lia.
  repeat (destruct E as [-> | E]; [split; reflexivity|]).
  subst d. split; reflexivity.
Qed.

Lemma digits_of_app fuel :
  forall n acc, digits_of fuel n acc = digits_of fuel n [] ++ acc.
Proof.
  induction fuel as [|fuel IH]; intros n acc; simpl; [reflexivity|].
  destruct (n <? 10)%Z; [reflexivity|].
  rewrite IH, (IH _ (cons _ nil)), <- app_assoc. reflexivity.
Qed.

Lemma decimal_snoc w c :
  decimal (w ++ [c]) = (10 * decimal w + (Z.of_nat (code c) - 48))%Z.
Proof. unfold decimal. rewrite fold_left_app. reflexivity. Qed.

Lemma decimal_single c : decimal [c] = (Z.of_nat (code c) - 48)%Z.
Proof. unfold decimal. cbn [fold_left]. unfold decimal_step. lia. Qed.

Lemma digits_of_spec fuel :
  forall n,
    (0 <= n < 2 ^ Z.of_nat (S fuel))%Z ->
    word is_digit (digits_of (S fuel) n []) /\
    decimal (digits_of (S fuel) n []) = n.
Proof.
  induction fuel as [|fuel IH]; intros n Hn.
  - change (2 ^ Z.of_nat 1)%Z with 2%Z in Hn. cbn [digits_of].
    assert (L : (n <? 10)%Z = true) by (apply Z.ltb_lt; lia).
    rewrite L. rewrite Z.mod_small by lia.
    destruct (@digit_char_spec n) as [D V]; [lia|].
    split; [split; [discriminate | constructor; [exact D | constructor]]|].
    rewrite decimal_single. exact V.
  - assert (M : (0 <= n mod 10 <= 9)%Z)
      by (pose proof (Z.mod_pos_bound n 10); lia).
    destruct (@digit_char_spec (n mod 10) M) as [D V].
    change (digits_of (S (S fuel)) n [])
      with (if (n <? 10)%Z then [digit_char (n mod 10)]
            else digits_of (S fuel) (n / 10) [digit_char (n mod 10)]).
    destruct (n <? 10)%Z eqn:L.
    + apply Z.ltb_lt in L. rewrite Z.mod_small in * by lia.
      split; [split; [discriminate | constructor; [exact D | constructor]]|].
      rewrite decimal_single. exact V.
    + apply Z.ltb_ge in L.
      assert (B : (0 <= n / 10 < 2 ^ Z.of_nat (S fuel))%Z).
      { split; [apply Z.div_pos; lia|].
        apply Z.div_lt_upper_bound; [lia|].
        rewrite (Nat2Z.inj_succ (S fuel)), Z.pow_succ_r in Hn by lia.
        pose proof (Z.pow_pos_nonneg 2 (Z.of_nat (S fuel))). lia. }
      destruct (IH _ B) as [[Wne Wall] Wv].
      rewrite digits_of_app. split.
      * split.
        -- intros E. apply app_eq_nil in E. destruct E; discriminate.
        -- apply Forall_app. split; [exact Wall|].
           constructor; [exact D | constructor].
      * rewrite decimal_snoc, Wv, V.
        pose proof (Z.div_mod n 10). lia.
Qed.

(** The decimal text of a number that is not negative is a run of digits
    that spells it. *)
Lemma py_str_digits n :
  (0 <= n)%Z -> word is_digit (py_str n) /\ decimal (py_str n) = n.
Proof.
  intros Hn. unfold py_str.
  assert (L : (n <? 0)%Z = false) by (apply Z.ltb_ge; exact Hn).
  rewrite L. apply digits_of_spec.
  split; [exact Hn|].
  rewrite Nat2Z.inj_succ, Z2Nat.id by apply Z.log2_nonneg.
  destruct (Z.eq_dec n 0) as [-> | Hz]; [reflexivity|].
  apply Z.log2_spec. lia.
Qed.

(** ** Files and the sample log *)

Lemma write_file_read path content d :
  write_file path content d path = Some content.
Proof. unfold write_file. rewrite str_eqb_refl. reflexivity. Qed.

Lemma readlines_line body :
  forall line rest,
    one_line body ->
    readlines_from false line (body ++ nl :: rest) =
    (line ++ body ++ [nl]) :: readlines_from false [] rest.
Proof.
  induction body as [|c body IH]; intros line rest Hb; simpl.
  - reflexivity.
  - inversion Hb as [|? ? [Hn Hc] Hb']; subst.
    destruct (Ascii.eqb c nl) eqn:E1; [apply Ascii.eqb_eq in E1; congruence|].
    destruct (Ascii.eqb c cr) eqn:E2; [apply Ascii.eqb_eq in E2; congruence|].
    rewrite IH by exact Hb'. rewrite <- app_assoc. reflexivity.
Qed.

(** Lines written one after the other, each ended by its line feed and
    with no line end inside, are the lines read back. *)
Lemma readlines_written bodies :
  Forall one_line bodies ->
  readlines (concat (List.map (fun b => b ++ [nl]) bodies)) =
  List.map (fun b => b ++ [nl]) bodies.
Proof.
  unfold readlines. induction 1 as [|b bodies Hb _ IH]; simpl.
  - reflexivity.
  - rewrite <- app_assoc. simpl. rewrite readlines_line by exact Hb.
    rewrite IH. reflexivity.
Qed.

Lemma pick_in (A : Type) (table : list A) i default :
  table <> [] -> In (pick table i default) table.
Proof.
  intros H. unfold pick. apply nth_In. apply Nat.mod_upper_bound.
  destruct table; [congruence | discriminate].
Qed.

Lemma pick_forall (A : Type) (P : A -> Prop) (table : list A) i default :
  table <> [] -> Forall P table -> P (pick table i default).
Proof.
  intros Hne H. rewrite Forall_forall in H. apply H. apply pick_in. exact Hne.
Qed.

Lemma common_ips_words : Forall (word (in_class NotSpace)) common_ips.
Proof.
  repeat (constructor;
          [split; [discriminate | repeat (constructor; [reflexivity|]);
                                  constructor]|]).
  constructor.
Qed.

Lemma common_urls_words : Forall (word (in_class NotSpace)) common_urls.
Proof.
  repeat (constructor;
          [split; [discriminate | repeat (constructor; [reflexivity|]);
                                  constructor]|]).
  constructor.
Qed.

Lemma status_codes_nonneg : Forall (fun z => (0 <= z)%Z) status_codes.
Proof. repeat (constructor; [lia|]). constructor. Qed.

Lemma status_codes_short :
  Forall (fun z => (Z.of_nat (length (py_str z)) <= int_max_str_digits)%Z)
         status_codes.
Proof. repeat (constructor; [vm_compute; discriminate|]). constructor. Qed.

Lemma status_codes_storable :
  Forall (fun z => storable z = true) status_codes.
Proof. repeat (constructor; [reflexivity|]). constructor. Qed.

Lemma digit_word_not_space w :
  word is_digit w -> word (in_class NotSpace) w.
Proof.
  intros [Hne H]. split; [exact Hne|].
  eapply Forall_impl; [|exact H].
  intros c Hc. simpl. rewrite (digit_not_space _ Hc). reflexivity.
Qed.

Lemma space_at_line_end c : c = nl \/ c = cr -> is_space c = true.
Proof. intros [-> | ->]; reflexivity. Qed.

Lemma not_space_one_line w :
  Forall (fun c => in_class NotSpace c = true) w -> one_line w.
Proof.
  intros H. eapply Forall_impl; [|exact H]. intros c Hc. simpl in Hc.
  apply negb_true_iff in Hc.
  split; intros ->; discriminate.
Qed.

Lemma sample_fields_well_formed strftime i :
  timestamp_text (strftime i) -> well_formed (sample_fields strftime i).
Proof.
  intros [Tne Tall].
  destruct (@py_str_digits (pick status_codes i 0%Z)) as [W _].
  { apply pick_forall; [discriminate | exact status_codes_nonneg]. }
  unfold well_formed, sample_fields; cbn [f_address f_user1 f_user2
    f_timestamp f_method f_path f_protocol f_status f_size].
  split; [apply pick_forall; [discriminate | exact common_ips_words]|].
  split; [split; [discriminate | repeat constructor]|].
  split; [split; [discriminate | repeat constructor]|].
  split.
  { split; [exact Tne|]. eapply Forall_impl; [|exact Tall].
    intros c [Hc _]. simpl. apply negb_true_iff. apply Ascii.eqb_neq.
    exact Hc. }
  split; [split; [discriminate | repeat constructor]|].
  split; [apply pick_forall; [discriminate | exact common_urls_words]|].
  split; [split; [discriminate | repeat constructor]|].
  split; [exact W|].
  split; [discriminate | repeat constructor].
Qed.

Lemma sample_line_render strftime i :
  sample_line strftime i = render (sample_fields strftime i) [nl].
Proof.
  unfold sample_line, log_line, render, sample_fields;
    cbn [f_address f_user1 f_user2 f_timestamp f_method f_path f_protocol
         f_status f_size].
  generalize (pick common_ips i []) (strftime i) (pick common_urls i [])
             (py_str (pick status_codes i 0%Z)).
  intros ip ts url st. reflexivity.
Qed.

Lemma render_tail f tail : render f tail = render f [] ++ tail.
Proof.
  unfold render.
  repeat (rewrite <- app_assoc; cbn [app]). reflexivity.
Qed.

Lemma render_one_line f :
  tokenized f -> one_line (f_timestamp f) -> one_line (render f []).
Proof.
  intros (Ha & Hu1 & Hu2 & _ & Hm & Hp & Hpr & Hs & Hz) Ht.
  assert (C : forall c w, c <> nl /\ c <> cr -> one_line w -> one_line (c :: w))
    by (intros; constructor; assumption).
  assert (A : forall w v, word (in_class NotSpace) w -> one_line v ->
                          one_line (w ++ v)).
  { intros w v [_ H] Hv. apply Forall_app. split; [|exact Hv].
    apply not_space_one_line. exact H. }
  unfold render.
  repeat (first [ apply A; [assumption|]
                | apply C; [split; discriminate|]
                | apply Forall_app; split; [exact Ht|] ]).
  constructor.
Qed.

Lemma sample_record_of strftime i :
  record_of (sample_fields strftime i) = sample_record strftime i.
Proof.
  unfold record_of, sample_record, sample_fields;
    cbn [f_address f_timestamp f_method f_path f_status].
  destruct (@py_str_digits (pick status_codes i 0%Z)) as [_ V].
  { apply pick_forall; [discriminate | exact status_codes_nonneg]. }
  rewrite V. reflexivity.
Qed.

Lemma timestamp_one_line t : timestamp_text t -> one_line t.
Proof.
  intros [_ H]. eapply Forall_impl; [|exact H]. intros c (_ & Hn & Hc). auto.
Qed.

Lemma sample_lines_read_back strftime rounds :
  (forall i, timestamp_text (strftime i)) ->
  readlines (concat (List.map (sample_line strftime) rounds)) =
  List.map (sample_line strftime) rounds.
Proof.
  intros Hclock.
  assert (E : List.map (sample_line strftime) rounds =
              List.map (fun b => b ++ [nl])
                (List.map (fun i => render (sample_fields strftime i) [])
                          rounds)).
  { rewrite map_map. apply map_ext. intros i.
    rewrite sample_line_render. apply render_tail. }
  rewrite E. apply readlines_written.
  apply Forall_forall. intros b Hb. apply in_map_iff in Hb.
  destruct Hb as (i & <- & _). apply render_one_line.
  - apply well_formed_tokenized. apply sample_fields_well_formed. apply Hclock.
  - apply timestamp_one_line. apply Hclock.
Qed.

Lemma sample_lines_parse strftime rounds :
  (forall i, timestamp_text (strftime i)) ->
  sequential_parse (List.map (sample_line strftime) rounds) =
  Ok (List.map (sample_record strftime) rounds).
Proof.
  intros Hclock. induction rounds as [|i rounds IH]; simpl; [reflexivity|].
  rewrite (@parse_wire_format _ (sample_fields strftime i)).
  - rewrite IH. simpl. rewrite sample_record_of. reflexivity.
  - split; [apply sample_fields_well_formed; apply Hclock|].
    right. apply sample_line_render.
  - cbn [sample_fields f_status].
    apply (@pick_forall Z
             (fun z => (Z.of_nat (length (py_str z)) <= int_max_str_digits)%Z));
      [discriminate | exact status_codes_short].
Qed.

Lemma clock_2024_text i : timestamp_text (clock_2024 i).
Proof.
  split; [discriminate|].
  repeat (constructor; [repeat split; discriminate|]). constructor.
Qed.

(** X6: when there is no log file, [generate_sample_log] writes one that
    reads back as [num_lines] lines (none for a negative number), line
    [i] being of the wire format with the address, URL and status picked
    in round [i]; no other file changes. *)
Theorem generate_sample_log_lines strftime num_lines d :
  d LOG_FILE = None -> (forall i, timestamp_text (strftime i)) ->
  let d' := generate_sample_log strftime num_lines d in
  exists lines,
    fs_of d' LOG_FILE = Some lines /\
    length lines = Z.to_nat num_lines /\
    (forall i, i < Z.to_nat num_lines ->
               nth_error lines i = Some (sample_line strftime i) /\
               wire_format (sample_line strftime i)
                           (sample_fields strftime i)) /\
    (forall path, path <> LOG_FILE -> d' path = d path).
Proof.
  intros Hd Hclock. cbv zeta. unfold generate_sample_log. rewrite Hd.
  exists (List.map (sample_line strftime) (List.seq 0 (Z.to_nat num_lines))).
  split; [|split; [|split]].
  - unfold fs_of. rewrite write_file_read. cbn [option_map].
    rewrite sample_lines_read_back by exact Hclock. reflexivity.
  - rewrite length_map, length_seq. reflexivity.
  - intros i Hi. split.
    + rewrite nth_error_map, nth_error_seq.
      assert (L : (i <? Z.to_nat num_lines) = true) by (apply Nat.ltb_lt; lia).
      rewrite L. reflexivity.
    + split; [apply sample_fields_well_formed; apply Hclock|].
      right. apply sample_line_render.
  - intros path Hp. unfold write_file.
    destruct (str_eqb path LOG_FILE) eqn:E; [|reflexivity].
    apply str_eqb_eq in E. contradiction.
Qed.

Lemma generate_sample_log_lines_witness :
  exists lines,
    fs_of (generate_sample_log clock_2024 3 no_files) LOG_FILE = Some lines /\
    length lines = 3.
Proof.
  destruct (@generate_sample_log_lines clock_2024 3 no_files eq_refl
              clock_2024_text) as (lines & E & L & _).
  exists lines. split; [exact E | exact L].
Defined.

Lemma generated_log_steps strftime num_lines d num_cores :
  d LOG_FILE = None -> (forall i, timestamp_text (strftime i)) ->
  1 <= num_cores ->
  process_log_data_parallel
    (fs_of (generate_sample_log strftime num_lines d)) num_cores LOG_FILE =
  Ok (List.map (sample_record strftime) (List.seq 0 (Z.to_nat num_lines))).
Proof.
  intros Hd Hclock Hc.
  rewrite (@parallel_is_sequential _ num_cores LOG_FILE
             (List.map (sample_line strftime)
                       (List.seq 0 (Z.to_nat num_lines)))).
  - apply sample_lines_parse. exact Hclock.
  - unfold generate_sample_log, fs_of. rewrite Hd, write_file_read.
    cbn [option_map]. rewrite sample_lines_read_back by exact Hclock.
    reflexivity.
  - exact Hc.
Qed.

(** X7: parsing the generated file gives one record for each line
    written, in order: the address, URL and status picked in round [i],
    the timestamp of that round and the method GET. *)
Theorem generated_log_parses strftime num_lines d num_cores :
  d LOG_FILE = None -> (forall i, timestamp_text (strftime i)) ->
  1 <= num_cores ->
  process_log_data_parallel
    (fs_of (generate_sample_log strftime num_lines d)) num_cores LOG_FILE =
  Ok (List.map (sample_record strftime) (List.seq 0 (Z.to_nat num_lines))).
Proof. apply generated_log_steps. Qed.

Lemma generated_log_parses_witness :
  process_log_data_parallel
    (fs_of (generate_sample_log clock_2024 2 no_files)) 4 LOG_FILE =
  Ok [ (s "192.168.1.1", s "01/Jan/2024:00:00:00 +0000", s "GET", s "/home",
        200%Z);
       (s "10.0.0.5", s "01/Jan/2024:00:00:00 +0000", s "GET",
        s "/product/view", 200%Z) ].
Proof.
  apply (@generated_log_parses clock_2024 2 no_files 4 eq_refl
           clock_2024_text).
  lia.
Defined.

(** X8: [generate_sample_log] never overwrites: a second call, with any
    clock and any number of lines, leaves the disk of the first call as
    it is. *)
Theorem generate_sample_log_once strftime num_lines strftime' num_lines' d :
  generate_sample_log strftime' num_lines'
    (generate_sample_log strftime num_lines d) =
  generate_sample_log strftime num_lines d.
Proof.
  unfold generate_sample_log at 2 3.
  destruct (d LOG_FILE) as [text|] eqn:E.
  - unfold generate_sample_log. rewrite E. reflexivity.
  - unfold generate_sample_log. rewrite write_file_read. reflexivity.
Qed.

(** ** The coordinator *)

Lemma filter_None_app (A : Type) (xs ys : list (option A)) :
  filter_None (xs ++ ys) = filter_None xs ++ filter_None ys.
Proof.
  induction xs as [|[x|] xs IH]; simpl; [reflexivity | rewrite IH | exact IH];
    reflexivity.
Qed.

Lemma filter_None_length (A : Type) (xs : list (option A)) :
  length (filter_None xs) <= length xs.
Proof. induction xs as [|[x|] xs IH]; simpl; lia. Qed.

Lemma kept_app lines1 lines2 :
  kept (lines1 ++ lines2) = kept lines1 ++ kept lines2.
Proof. unfold kept. rewrite map_app. apply filter_None_app. Qed.

(** X9: whenever the coordinator returns, it returns the records of the
    lines the parser keeps, each once and in the order of the lines, at
    most one for a line; so the records of a file that is two files one
    after the other are the records of the first followed by those of
    the second. *)
Theorem coordinator_in_order fs file_path lines num_cores out :
  fs file_path = Some lines ->
  process_log_data_parallel fs num_cores file_path = Ok out ->
  out = kept lines /\
  length out <= length lines /\
  (forall lines1 lines2,
      lines = lines1 ++ lines2 -> out = kept lines1 ++ kept lines2).
Proof.
  intros Hfs E.
  assert (Hc : 1 <= num_cores).
  { destruct num_cores; [|lia]. exfalso.
    unfold process_log_data_parallel in E. rewrite Hfs in E.
    unfold Pool.map in E. cbn [Nat.eqb bind] in E. discriminate. }
  rewrite (parallel_is_sequential fs file_path Hfs Hc) in E.
  destruct (sequential_parse_ok _ E) as [-> _].
  split; [reflexivity|]. split.
  - unfold kept. etransitivity; [apply filter_None_length|].
    rewrite length_map. apply le_n.
  - intros lines1 lines2 ->. apply kept_app.
Qed.

Lemma coordinator_in_order_witness :
  exists out,
    process_log_data_parallel (fun _ => Some [line_negative; line_post]) 2
                              LOG_FILE = Ok out /\
    out = [(s "10.0.0.1", s "01/Jan/2024:00:00:00 +0000", s "POST",
            s "/api/data", 404%Z)].
Proof.
  eexists. split; [vm_compute; reflexivity|].
  destruct (@coordinator_in_order (fun _ => Some [line_negative; line_post])
              LOG_FILE [line_negative; line_post] 2 _ eq_refl
              ltac:(vm_compute; reflexivity)) as [E _].
  rewrite E. vm_compute. reflexivity.
Defined.

(** ** Loading *)



(** X11: the ids stay a key: on a store whose ids grow along the rows and
    do not pass the counter, [setup_database] and [bulk_load_data] leave a
    store of that kind, so no two rows ever share a [LogID]. *)
Theorem ids_stay_in_order st :
  ids_in_order st ->
  (forall st1, setup_database st = Ok st1 -> ids_in_order st1) /\
  (forall parsed_data st2,
      bulk_load_data st parsed_data = Ok st2 ->
      ids_in_order st2 /\ NoDup (List.map LogID (rows st2))).
Proof.
  intros [S F]. split.
  - intros st1 E. destruct (setup_database_spec _ E) as (_ & _ & _ & R & Q & _).
    unfold ids_in_order. rewrite R, Q. split; assumption.
  - intros parsed_data st2 E.
    destruct (bulk_load_data_ok_inv _ _ E) as (_ & _ & ->).
    destruct (rows_of_ids parsed_data (seq st)) as [S' F'].
    assert (I : StronglySorted Z.lt
                  (List.map LogID (rows st ++ rows_of (seq st) parsed_data))).
    { rewrite map_app. apply sorted_app; [exact S | exact S' |].
      intros x y Hx Hy. rewrite Forall_forall in F, F'.
      specialize (F _ Hx). specialize (F' _ Hy). cbv beta in *. lia. }
    unfold ids_in_order. cbn [rows seq]. split; [split; [exact I|]|].
    + rewrite map_app. apply Forall_app. split.
      * eapply Forall_impl; [|exact F]. cbv beta. intros id H. lia.
      * eapply Forall_impl; [|exact F']. cbv beta. intros id H. lia.
    + clear - I. induction I as [|id ids _ IH Hall]; constructor; [|exact IH].
      intros Hin. rewrite Forall_forall in Hall. specialize (Hall _ Hin). lia.
Qed.

Lemma ids_stay_in_order_witness :
  exists st1 st2,
    setup_database empty_store = Ok st1 /\
    bulk_load_data st1 eleven_requests = Ok st2 /\
    NoDup (List.map LogID (rows st2)).
Proof.
  assert (I : ids_in_order
                {| schema := [Table Log_Entries;
                              Index idx_ip Log_Entries (s "IP_Address")];
                   rows := []; seq := 0 |}).
  { split; constructor. }
  eexists. eexists. split; [reflexivity|].
  split; [vm_compute; reflexivity|].
  exact (proj2 (proj2 (ids_stay_in_order I) eleven_requests _
                      ltac:(vm_compute; reflexivity))).
Defined.

Lemma insert_each_app batch1 :
  forall batch2 st,
    insert_each (batch1 ++ batch2) st =
    (st1 <- insert_each batch1 st ;; insert_each batch2 st1).
Proof.
  induction batch1 as [|r batch1 IH]; intros batch2 st; [reflexivity|].
  cbn [app insert_each]. destruct (insert r st) as [st1|e]; [|reflexivity].
  cbn [bind]. apply IH.
Qed.

(** X12: loading in two batches returns exactly when loading the two
    batches as one returns, and then with the same store. *)
Theorem bulk_load_data_twice st batch1 batch2 st2 :
  (st1 <- bulk_load_data st batch1 ;; bulk_load_data st1 batch2) = Ok st2 <->
  bulk_load_data st (batch1 ++ batch2) = Ok st2.
Proof.
  unfold bulk_load_data, executemany_insert.
  destruct (has_table Log_Entries st) eqn:Ht; [|split; discriminate].
  rewrite insert_each_app.
  destruct (insert_each batch1 st) as [st1|e] eqn:E1; [|reflexivity].
  cbn [bind]. destruct (insert_each_ok_inv _ _ E1) as [_ ->].
  unfold has_table in *. cbn [schema]. rewrite Ht. reflexivity.
Qed.

(** X13: [setup_database] never drops anything: when it returns, the rows
    and the counter are those it found, and the schema is the one it found
    with at most the table and the index added at the end. *)
Theorem setup_database_keeps_data st st1 :
  setup_database st = Ok st1 ->
  rows st1 = rows st /\ seq st1 = seq st /\
  exists added,
    schema st1 = schema st ++ added /\
    incl added [Table Log_Entries; Index idx_ip Log_Entries (s "IP_Address")].
Proof.
  unfold setup_database, create_table, create_index.
  destruct (has_table Log_Entries st) eqn:T1; cbn [bind].
  - rewrite T1. cbn [negb].
    destruct (has_table idx_ip st); [discriminate|].
    destruct (has_index idx_ip st); intros E; inversion E; subst st1.
    + repeat split. exists []. rewrite app_nil_r. split; [reflexivity|].
      intros x [].
    + repeat split. eexists. split; [reflexivity|].
      intros x [<- | []]. right. left. reflexivity.
  - destruct (has_index Log_Entries st); [discriminate|]. cbn [bind].
    destruct (negb (has_table Log_Entries (add_object (Table Log_Entries) st)));
      [discriminate|].
    destruct (has_table idx_ip (add_object (Table Log_Entries) st));
      [discriminate|].
    destruct (has_index idx_ip (add_object (Table Log_Entries) st));
      intros E; inversion E; subst st1.
    + repeat split. eexists. split; [reflexivity|].
      intros x [<- | []]. left. reflexivity.
    + repeat split. exists [Table Log_Entries;
                            Index idx_ip Log_Entries (s "IP_Address")].
      split; [|apply incl_refl].
      cbn [add_object schema]. rewrite <- app_assoc. reflexivity.
Qed.

Lemma setup_database_keeps_data_witness :
  exists st1,
    setup_database
      {| schema := [Table Log_Entries];
         rows := rows_of 0 eleven_requests; seq := 11 |} = Ok st1 /\
    rows st1 = rows_of 0 eleven_requests /\ seq st1 = 11%Z.
Proof.
  eexists. split; [reflexivity|].
  destruct (@setup_database_keeps_data
              {| schema := [Table Log_Entries];
                 rows := rows_of 0 eleven_requests; seq := 11 |} _ eq_refl)
    as (R & Q & _).
  split; [exact R | exact Q].
Defined.

(** ** The ranking *)

(** X14: the ten are the top ten: an address of the table that the query
    does not return has no more rows than any address it returns, and
    then ten are returned. *)
Theorem top_ips_leaves_out_the_least st top ip :
  top_ips st = Ok top -> In ip (List.map IP_Address (rows st)) ->
  In ip (List.map fst top) \/
  (length top = 10 /\
   forall k n, In (k, n) top ->
               (Z.of_nat (count_key ip (List.map IP_Address (rows st))) <= n)%Z).
Proof. apply top_ips_complete. Qed.

Lemma top_ips_leaves_out_the_least_witness :
  exists st top,
    load_then_aggregate eleven_requests = Ok top /\
    top_ips st = Ok top /\
    (In (s "10.0.0.11") (List.map fst top) \/ length top = 10).
Proof.
  exists {| schema := [Table Log_Entries];
            rows := rows_of 0 eleven_requests; seq := 11 |}.
  eexists. split; [vm_compute; reflexivity|]. split; [vm_compute; reflexivity|].
  destruct (@top_ips_leaves_out_the_least
              {| schema := [Table Log_Entries];
                 rows := rows_of 0 eleven_requests; seq := 11 |}
              _ (s "10.0.0.11") eq_refl) as [H | [H _]].
  - vm_compute. tauto.
  - left. exact H.
  - right. exact H.
Defined.

(** ** The whole run *)

Lemma generate_sample_log_file strftime num_lines d :
  exists text, generate_sample_log strftime num_lines d LOG_FILE = Some text.
Proof.
  unfold generate_sample_log. destruct (d LOG_FILE) as [text|] eqn:E.
  - exists text. exact E.
  - rewrite write_file_read. eauto.
Qed.

Lemma run_optimized_analysis_prints st :
  has_table Log_Entries st = true ->
  exists top,
    top_ips st = Ok top /\
    run_optimized_analysis st =
    ([Banner; AnalysisTime; TopHeader]
       ++ List.map (fun g => Entry (fst g) (snd g)) top, Ok tt).
Proof.
  intros H. eexists. split; [apply top_ips_rows; exact H|].
  unfold run_optimized_analysis. rewrite (top_ips_rows _ H). reflexivity.
Qed.

Lemma pool_needs_a_worker fs file_path lines out :
  fs file_path = Some lines ->
  process_log_data_parallel fs 0 file_path = Ok out -> False.
Proof.
  intros Hfs. unfold process_log_data_parallel. rewrite Hfs.
  unfold Pool.map. simpl. discriminate.
Qed.

(** What [main] does once the schema is there and the log is parsed. *)
Lemma main_steps strftime num_cores w conn parsed :
  setup_database (database w) = Ok conn ->
  process_log_data_parallel
    (fs_of (generate_sample_log strftime 10000 (files w))) num_cores LOG_FILE
  = Ok parsed ->
  (parsed = [] ->
   main strftime num_cores w =
   Ok ({| files := generate_sample_log strftime 10000 (files w);
          database := conn |}, [])) /\
  (parsed <> [] ->
   forall e, bulk_load_data conn parsed = Raise e ->
             main strftime num_cores w = Raise e) /\
  (parsed <> [] ->
   forall st', bulk_load_data conn parsed = Ok st' ->
   exists top,
     top_ips st' = Ok top /\
     main strftime num_cores w =
     Ok ({| files := generate_sample_log strftime 10000 (files w);
            database := st' |},
         [Banner; AnalysisTime; TopHeader]
           ++ List.map (fun g => Entry (fst g) (snd g)) top)).
Proof.
  intros Es Ep. unfold main. cbv zeta. rewrite Es. cbn [bind]. rewrite Ep.
  cbn [bind]. split; [|split].
  - intros ->. reflexivity.
  - intros Hne e Eb. destruct parsed as [|r parsed]; [congruence|].
    rewrite Eb. reflexivity.
  - intros Hne st' Eb. destruct parsed as [|r parsed]; [congruence|].
    rewrite Eb. cbn [bind].
    destruct (bulk_load_data_ok_inv _ _ Eb) as (Ht & _ & Est).
    assert (Ht' : has_table Log_Entries st' = true)
      by (rewrite Est; exact Ht).
    destruct (run_optimized_analysis_prints _ Ht') as (top & Et & Er).
    exists top. split; [exact Et|]. rewrite Er. reflexivity.
Qed.

Lemma sample_records_loadable strftime last rounds :
  (last + Z.of_nat (length rounds) <= int64_max)%Z ->
  loadable last (List.map (sample_record strftime) rounds).
Proof.
  intros Hl. split.
  - apply Forall_forall. intros r Hr. apply in_map_iff in Hr.
    destruct Hr as (i & <- & _). unfold sample_record. cbn [status_of].
    apply (@pick_forall Z (fun z => storable z = true));
      [discriminate | exact status_codes_storable].
  - intros _. rewrite length_map. exact Hl.
Qed.

(** X15: when there is no log file, the schema can be set up, there is at
    least one core and ids are left for 10000 rows, [main] ends without
    an exception: it has written the log file and the table has 10000
    rows more. *)
Theorem main_returns strftime num_cores w conn :
  files w LOG_FILE = None -> (forall i, timestamp_text (strftime i)) ->
  setup_database (database w) = Ok conn -> 1 <= num_cores ->
  (seq (database w) + 10000 <= int64_max)%Z ->
  exists w' printed,
    main strftime num_cores w = Ok (w', printed) /\
    files w' LOG_FILE <> None /\
    Z.of_nat (length (rows (database w'))) =
    (Z.of_nat (length (rows (database w))) + 10000)%Z.
Proof.
  intros Hd Hclock Es Hc Hroom.
  set (parsed := List.map (sample_record strftime)
                          (List.seq 0 (Z.to_nat 10000))).
  assert (Ep : process_log_data_parallel
                 (fs_of (generate_sample_log strftime 10000 (files w)))
                 num_cores LOG_FILE = Ok parsed)
    by (apply generated_log_steps; assumption).
  assert (Hlen : Z.of_nat (length parsed) = 10000%Z).
  { unfold parsed. rewrite length_map, length_seq. apply Z2Nat.id. lia. }
  assert (Hne : parsed <> []).
  { intros E. rewrite E in Hlen. discriminate. }
  destruct (setup_database_spec _ Es) as (Ht & _ & _ & R & Q & _).
  assert (Hl : loadable (seq conn) parsed).
  { unfold parsed. apply sample_records_loadable.
    rewrite length_seq, Z2Nat.id, Q by lia. exact Hroom. }
  pose proof (@bulk_load_data_ok conn parsed Ht Hl) as Eb.
  destruct (@main_steps strftime num_cores w conn parsed Es Ep)
    as (_ & _ & Hm).
  destruct (Hm Hne _ Eb) as (top & _ & Em).
  eexists _, _. split; [exact Em|]. cbn [files database rows].
  split.
  - destruct (generate_sample_log_file strftime 10000 (files w)) as [text Ef].
    rewrite Ef. discriminate.
  - rewrite length_app, rows_of_length, Nat2Z.inj_add, Hlen, R. reflexivity.
Qed.

Lemma main_returns_witness :
  exists w' printed,
    main clock_2024 1 {| files := no_files; database := empty_store |}
    = Ok (w', printed) /\
    files w' LOG_FILE <> None /\
    Z.of_nat (length (rows (database w'))) = 10000%Z.
Proof.
  apply (@main_returns clock_2024 1
           {| files := no_files; database := empty_store |}
           {| schema := [Table Log_Entries;
                         Index idx_ip Log_Entries (s "IP_Address")];
              rows := []; seq := 0 |}).
  - reflexivity.
  - exact clock_2024_text.
  - reflexivity.
  - lia.
  - vm_compute. discriminate.
Defined.

(** X16: when [main] returns, the table holds the rows it held before
    followed by one row for each line of the log file that parses, K rows
    when K lines are of the wire format; the log file is the one that
    was there, or the generated one.  When nothing parses nothing is
    loaded and no analysis is printed. *)
Theorem main_loads_what_parses strftime num_cores w w' printed :
  main strftime num_cores w = Ok (w', printed) ->
  exists lines parsed,
    files w' = generate_sample_log strftime 10000 (files w) /\
    fs_of (files w') LOG_FILE = Some lines /\
    sequential_parse lines = Ok parsed /\
    rows (database w') =
    rows (database w) ++ rows_of (seq (database w)) parsed /\
    (forall k, count_matching lines k -> length parsed = k) /\
    (parsed = [] -> printed = []).
Proof.
  intros Em.
  destruct (generate_sample_log_file strftime 10000 (files w)) as [text Ef].
  assert (Hfs : fs_of (generate_sample_log strftime 10000 (files w)) LOG_FILE
                = Some (readlines text))
    by (unfold fs_of; rewrite Ef; reflexivity).
  destruct (setup_database (database w)) as [conn|e] eqn:Es;
    [|unfold main in Em; rewrite Es in Em; discriminate].
  destruct (process_log_data_parallel
              (fs_of (generate_sample_log strftime 10000 (files w)))
              num_cores LOG_FILE) as [parsed|e] eqn:Ep;
    [|unfold main in Em; cbv zeta in Em; rewrite Es in Em; cbn [bind] in Em;
      rewrite Ep in Em; discriminate].
  assert (Hc : 1 <= num_cores).
  { destruct num_cores; [|lia]. exfalso.
    apply (pool_needs_a_worker _ _ Hfs Ep). }
  destruct (setup_database_spec _ Es) as (_ & _ & _ & R & Q & _).
  destruct (@main_steps strftime num_cores w conn parsed Es Ep)
    as (M0 & M1 & M2).
  rewrite (parallel_is_sequential _ LOG_FILE Hfs Hc) in Ep.
  destruct (sequential_parse_ok _ Ep) as [_ Hcount].
  exists (readlines text), parsed.
  destruct parsed as [|r parsed].
  - rewrite (M0 eq_refl) in Em. inversion Em; subst w' printed.
    cbn [files database rows_of]. rewrite app_nil_r.
    repeat split; auto.
  - assert (Hne : r :: parsed <> []) by discriminate.
    destruct (bulk_load_data conn (r :: parsed)) as [st'|e] eqn:Eb.
    + destruct (M2 Hne st' eq_refl) as (top & _ & Em').
      rewrite Em' in Em. inversion Em; subst w' printed.
      destruct (bulk_load_data_ok_inv _ _ Eb) as (_ & _ & ->).
      cbn [files database rows]. rewrite R, Q.
      repeat split; auto. intros H. discriminate.
    + rewrite (M1 Hne e eq_refl) in Em. discriminate.
Qed.

Lemma main_loads_what_parses_witness :
  exists w' printed lines parsed,
    main clock_2024 1
         {| files := fun _ => Some (line_post ++ [nl]);
            database := empty_store |} = Ok (w', printed) /\
    fs_of (files w') LOG_FILE = Some lines /\
    sequential_parse lines = Ok parsed /\
    rows (database w') = rows_of 0 parsed.
Proof.
  destruct (main clock_2024 1
              {| files := fun _ => Some (line_post ++ [nl]);
                 database := empty_store |})
    as [[w' printed]|e] eqn:E; [|vm_compute in E; discriminate].
  destruct (main_loads_what_parses _ _ _ E)
    as (lines & parsed & _ & Hl & Hp & Hr & _).
  exists w', printed, lines, parsed. auto.
Defined.

Lemma sample_addresses strftime rounds :
  List.map address_of (List.map (sample_record strftime) rounds) =
  List.map (fun i => pick common_ips i []) rounds.
Proof. rewrite map_map. reflexivity. Qed.

(** X17: the first run, with no log file and no database: [main] writes
    the log, loads its 10000 records and prints ten entries, one for each
    of the first ten addresses of [common_ips], each with 556 requests. *)
Theorem main_first_run strftime num_cores :
  (forall i, timestamp_text (strftime i)) -> 1 <= num_cores ->
  exists w' top,
    main strftime num_cores {| files := no_files; database := empty_store |}
    = Ok (w', [Banner; AnalysisTime; TopHeader]
                ++ List.map (fun g => Entry (fst g) (snd g)) top) /\
    Z.of_nat (length (rows (database w'))) = 10000%Z /\
    List.map snd top = repeat 556%Z 10 /\
    NoDup (List.map fst top) /\
    (forall ip, In ip (List.map fst top) -> In ip (firstn 10 common_ips)).
Proof.
  intros Hclock Hc.
  set (w := {| files := no_files; database := empty_store |}).
  set (conn := {| schema := [Table Log_Entries;
                             Index idx_ip Log_Entries (s "IP_Address")];
                  rows := []; seq := 0 |}).
  set (parsed := List.map (sample_record strftime)
                          (List.seq 0 (Z.to_nat 10000))).
  assert (Ep : process_log_data_parallel
                 (fs_of (generate_sample_log strftime 10000 (files w)))
                 num_cores LOG_FILE = Ok parsed)
    by (apply generated_log_steps; [reflexivity | exact Hclock | exact Hc]).
  assert (Es : setup_database (database w) = Ok conn) by reflexivity.
  assert (Hlen : Z.of_nat (length parsed) = 10000%Z).
  { unfold parsed. rewrite length_map, length_seq. apply Z2Nat.id. lia. }
  assert (Hne : parsed <> []).
  { intros E. rewrite E in Hlen. discriminate. }
  assert (Hl : loadable (seq conn) parsed).
  { unfold parsed. apply sample_records_loadable.
    rewrite length_seq, Z2Nat.id by lia. vm_compute. discriminate. }
  pose proof (@bulk_load_data_ok conn parsed eq_refl Hl) as Eb.
  destruct (@main_steps strftime num_cores w conn parsed Es Ep)
    as (_ & _ & Hm).
  destruct (Hm Hne _ Eb) as (top & Et & Em).
  rewrite top_ips_rows in Et by reflexivity. cbn [rows conn app] in Et.
  rewrite rows_of_addresses in Et. unfold parsed in Et.
  rewrite sample_addresses in Et.
  pose proof (f_equal (fun r => match r with Ok x => x | Raise _ => top end) Et)
    as Etop.
  cbv beta iota in Etop. clear Et.
  eexists _, top. split; [exact Em|]. cbn [database rows conn app].
  split; [rewrite rows_of_length; exact Hlen|].
  split; [rewrite <- Etop; vm_compute; reflexivity|].
  split.
  { rewrite <- Etop. apply group_count_sorted_spec. }
  intros ip Hip. rewrite <- Etop in Hip. vm_compute in Hip. vm_compute.
  repeat (destruct Hip as [<- | Hip]; [tauto|]). contradiction.
Qed.

Lemma main_first_run_witness :
  exists w' top,
    main clock_2024 4 {| files := no_files; database := empty_store |}
    = Ok (w', [Banner; AnalysisTime; TopHeader]
                ++ List.map (fun g => Entry (fst g) (snd g)) top) /\
    Z.of_nat (length (rows (database w'))) = 10000%Z.
Proof.
  destruct (@main_first_run clock_2024 4 clock_2024_text)
    as (w' & top & E & L & _); [lia|].
  exists w', top. split; [exact E | exact L].
Defined.
